(** * Clause recovery pipeline of [DocumentAnalysis.tsx]

    A shallow embedding of [parseNestedClauses], [extractObjectsFromText],
    [generateSummary], the risk counts and the computation of
    [parseMethod] from [src/pages/DocumentAnalysis.tsx], together with the
    parts of the JavaScript run-time they call ([JSON.parse],
    [JSON.stringify], [trim], [toLowerCase], [indexOf], the regular
    expressions of the file, property access, [toString]).

    Conventions of the embedding.
    - A JavaScript string is a [string]: one [ascii] per code unit, so the
      modelled strings are those over U+0000..U+00FF.  A [\uXXXX] escape
      above U+00FF read by [JSON.parse] is kept as the character [?].
    - A JavaScript number is kept as the text of its JSON literal (its
      IEEE value is not interpreted); printing a number prints that text,
      and a number is falsy when its literal has no digit other than 0
      before the exponent.
    - A thrown exception is the [Throw] case of [result]; a [try] block
      with an empty [catch] is [try_catch].
    - Text that holds double quotes is written with apostrophes and turned
      by [q]. *)

From Stdlib Require Import String Ascii List Bool Arith NArith ZArith Lia.
From Stdlib Require Import DecimalString.
Import ListNotations.
Local Open Scope list_scope.
Local Open Scope string_scope.

(** ** Characters and strings *)

Definition code (c : ascii) : N := N_of_ascii c.

(** [\s] and the characters removed by [trim], below U+0100:
    TAB, LF, VT, FF, CR, SPACE, NBSP. *)
Definition is_space (c : ascii) : bool :=
  let n := code c in
  ((9 <=? n) && (n <=? 13) || (n =? 32) || (n =? 160))%N.

(** The four whitespace characters of the JSON grammar. *)
Definition is_json_ws (c : ascii) : bool :=
  let n := code c in
  ((n =? 9) || (n =? 10) || (n =? 13) || (n =? 32))%N.

Definition is_digit (c : ascii) : bool :=
  let n := code c in ((48 <=? n) && (n <=? 57))%N.

Definition is_digit19 (c : ascii) : bool :=
  let n := code c in ((49 <=? n) && (n <=? 57))%N.

Definition hex_value (c : ascii) : option N :=
  let n := code c in
  if ((48 <=? n) && (n <=? 57))%N then Some (n - 48)%N
  else if ((65 <=? n) && (n <=? 70))%N then Some (n - 55)%N
  else if ((97 <=? n) && (n <=? 102))%N then Some (n - 87)%N
  else None.

(** The double quote character. *)
Definition dquote : ascii := "034"%char.

Definition snoc (s : string) (c : ascii) : string := s ++ String c "".

Fixpoint ltrim (s : string) : string :=
  match s with
  | "" => ""
  | String c r => if is_space c then ltrim r else s
  end.

Fixpoint rtrim (s : string) : string :=
  match s with
  | "" => ""
  | String c r =>
      match rtrim r with
      | "" => if is_space c then "" else String c ""
      | r' => String c r'
      end
  end.

(** [s.trim()] *)
Definition trim (s : string) : string := ltrim (rtrim s).

(** [String.prototype.toLowerCase] on U+0000..U+00FF. *)
Definition lower_char (c : ascii) : ascii :=
  let n := code c in
  if ((65 <=? n) && (n <=? 90))%N then ascii_of_N (n + 32)
  else if ((192 <=? n) && (n <=? 222) && negb (n =? 215))%N
       then ascii_of_N (n + 32)
  else c.

Fixpoint toLowerCase (s : string) : string :=
  match s with
  | "" => ""
  | String c r => String (lower_char c) (toLowerCase r)
  end.

Fixpoint join (sep : string) (l : list string) : string :=
  match l with
  | [] => ""
  | [x] => x
  | x :: r => x ++ sep ++ join sep r
  end.

(** [s.indexOf(c)] and [s.lastIndexOf(c)] for a one-character needle;
    [-1] when the character does not occur. *)
Fixpoint indexOf (c : ascii) (s : string) : Z :=
  match s with
  | "" => (-1)%Z
  | String d r =>
      if Ascii.eqb c d then 0%Z
      else let i := indexOf c r in
           if (i =? -1)%Z then (-1)%Z else (i + 1)%Z
  end.

Fixpoint lastIndexOf (c : ascii) (s : string) : Z :=
  match s with
  | "" => (-1)%Z
  | String d r =>
      let i := lastIndexOf c r in
      if (i =? -1)%Z then (if Ascii.eqb c d then 0%Z else (-1)%Z)
      else (i + 1)%Z
  end.

(** [s.substring(a, b)] for [0 <= a <= b]. *)
Definition substring (a b : Z) (s : string) : string :=
  String.substring (Z.to_nat a) (Z.to_nat (b - a)) s.

(** The decimal text of a natural number (an array index as a number). *)
Definition decimal (n : nat) : string :=
  NilEmpty.string_of_uint (Nat.to_uint n).

(** ** Values *)

#[local] Set Warnings "-register-all".

Inductive value : Type :=
| JUndefined
| JNull
| JBool (b : bool)
| JNum (literal : string)
| JStr (s : string)
| JArr (items : list value)
| JObj (props : list (string * value)).

Inductive error : Type := TypeError | SyntaxError.

Inductive result (A : Type) : Type :=
| Ok (a : A)
| Throw (e : error).
Arguments Ok {A} a.
Arguments Throw {A} e.

Definition bind {A B} (m : result A) (k : A -> result B) : result B :=
  match m with
  | Ok a => k a
  | Throw e => Throw e
  end.

Notation "x <- m ;; k" := (bind m (fun x => k))
  (at level 61, m at next level, right associativity).

(** [try { body } catch (err) { }] around a body that either returns from
    the enclosing function ([Ok (Some r)]), falls through ([Ok None]) or
    throws. *)
Definition try_catch {A} (body : result (option A)) : option A :=
  match body with
  | Ok r => r
  | Throw _ => None
  end.

Definition nullish (v : value) : bool :=
  match v with
  | JUndefined | JNull => true
  | _ => false
  end.

(** [a ?? b] on two values already computed. *)
Definition coalesce (a b : value) : value := if nullish a then b else a.

(** [a ?? b] where evaluating an operand may throw; [b] is evaluated only
    when [a] is [null] or [undefined]. *)
Definition coalesce_r (a b : result value) : result value :=
  x <- a ;; if nullish x then b else Ok x.
Infix "??" := coalesce_r (at level 45, right associativity).

Fixpoint all_zero_digits (s : string) : bool :=
  match s with
  | "" => true
  | String c r =>
      if (Ascii.eqb c "e" || Ascii.eqb c "E")%bool then true
      else (negb (is_digit19 c) && all_zero_digits r)%bool
  end.

(** [ToBoolean]: [undefined], [null], [false], zero and [""] are falsy. *)
Definition truthy (v : value) : bool :=
  match v with
  | JUndefined | JNull => false
  | JBool b => b
  | JNum l => negb (all_zero_digits l)
  | JStr s => negb (s =? "")
  | JArr _ | JObj _ => true
  end.

(** ** Property access *)

Fixpoint digits_value (acc : N) (s : string) : option N :=
  match s with
  | "" => Some acc
  | String c r =>
      if is_digit c then digits_value (acc * 10 + (code c - 48))%N r
      else None
  end.

(** An array index: a canonical decimal numeral below 2^32 - 1. *)
Definition array_index (k : string) : option N :=
  match k with
  | "" => None
  | String c r =>
      if (Ascii.eqb c "0" && negb (r =? ""))%bool then None
      else match digits_value 0 k with
           | Some n => if (n <? 4294967295)%N then Some n else None
           | None => None
           end
  end.

Fixpoint lookup (k : string) (props : list (string * value)) : option value :=
  match props with
  | [] => None
  | (k', v) :: r => if k =? k' then Some v else lookup k r
  end.

(** [v[k]] / [v.k] for the property names the program uses ([clauses],
    ["0"], [text], [id], ...), none of which is defined on a built-in
    prototype: own properties of objects, elements of arrays, characters
    of strings, [undefined] otherwise; a [TypeError] on [null] and
    [undefined]. *)
Definition get (v : value) (k : string) : result value :=
  match v with
  | JUndefined | JNull => Throw TypeError
  | JObj props =>
      Ok (match lookup k props with Some x => x | None => JUndefined end)
  | JArr items =>
      Ok (match array_index k with
          | Some n => nth (N.to_nat n) items JUndefined
          | None => if k =? "length" then JNum (decimal (List.length items))
                    else JUndefined
          end)
  | JStr s =>
      Ok (match array_index k with
          | Some n => match String.get (N.to_nat n) s with
                      | Some c => JStr (String c "")
                      | None => JUndefined
                      end
          | None => if k =? "length" then JNum (decimal (String.length s))
                    else JUndefined
          end)
  | JBool _ | JNum _ => Ok JUndefined
  end.

(** [v?.k]: [undefined] on [null] and [undefined], never throws. *)
Definition opt_get (v : value) (k : string) : value :=
  match get v k with
  | Ok x => x
  | Throw _ => JUndefined
  end.

(** ** [JSON.parse]

    The text is cut into tokens by one pass over its characters ([lex]);
    the tokens drive a stack of open containers ([parse_tokens]).  Both
    are structural recursions, so [JSON_parse] is total. *)

Inductive token : Type :=
| TLBrace | TRBrace | TLBrack | TRBrack | TColon | TComma
| TStr (s : string)
| TNum (literal : string)
| TTrue | TFalse | TNull.

(** Where the lexer stands inside a number literal: an optional minus, an
    integer part without leading zero, an optional fraction, an optional
    exponent. *)
Inductive numstate : Type :=
| NMinus | NZero | NInt | NDot | NFrac | NExp | NExpSign | NExpDigits.

Inductive lstate : Type :=
| LDefault
| LStr (acc : string)
| LEsc (acc : string)
| LUni (acc : string) (hex : list N)
| LNum (acc : string) (st : numstate)
| LLit (rest : string) (lit : option bool).

(** The literal being read: [true], [false] or, for [None], [null]. *)
Definition lit_token (lit : option bool) : token :=
  match lit with
  | Some true => TTrue
  | Some false => TFalse
  | None => TNull
  end.

Definition lex_default (c : ascii) : option (list token * lstate) :=
  if is_json_ws c then Some ([], LDefault)
  else if Ascii.eqb c "{" then Some ([TLBrace], LDefault)
  else if Ascii.eqb c "}" then Some ([TRBrace], LDefault)
  else if Ascii.eqb c "[" then Some ([TLBrack], LDefault)
  else if Ascii.eqb c "]" then Some ([TRBrack], LDefault)
  else if Ascii.eqb c ":" then Some ([TColon], LDefault)
  else if Ascii.eqb c "," then Some ([TComma], LDefault)
  else if Ascii.eqb c dquote then Some ([], LStr "")
  else if Ascii.eqb c "-" then Some ([], LNum "-" NMinus)
  else if Ascii.eqb c "0" then Some ([], LNum "0" NZero)
  else if is_digit19 c then Some ([], LNum (String c "") NInt)
  else if Ascii.eqb c "t" then Some ([], LLit "rue" (Some true))
  else if Ascii.eqb c "f" then Some ([], LLit "alse" (Some false))
  else if Ascii.eqb c "n" then Some ([], LLit "ull" None)
  else None.

Definition is_e (c : ascii) : bool := (Ascii.eqb c "e" || Ascii.eqb c "E")%bool.

(** The next state inside a number; [None] when [c] does not continue the
    literal. *)
Definition num_next (st : numstate) (c : ascii) : option numstate :=
  match st with
  | NMinus => if Ascii.eqb c "0" then Some NZero
              else if is_digit19 c then Some NInt else None
  | NZero => if Ascii.eqb c "." then Some NDot
             else if is_e c then Some NExp else None
  | NInt => if is_digit c then Some NInt
            else if Ascii.eqb c "." then Some NDot
            else if is_e c then Some NExp else None
  | NDot => if is_digit c then Some NFrac else None
  | NFrac => if is_digit c then Some NFrac
             else if is_e c then Some NExp else None
  | NExp => if (Ascii.eqb c "+" || Ascii.eqb c "-")%bool then Some NExpSign
            else if is_digit c then Some NExpDigits else None
  | NExpSign => if is_digit c then Some NExpDigits else None
  | NExpDigits => if is_digit c then Some NExpDigits else None
  end.

(** The states in which a number literal is complete. *)
Definition num_final (st : numstate) : bool :=
  match st with
  | NZero | NInt | NFrac | NExpDigits => true
  | _ => false
  end.

Definition escape_char (c : ascii) : option ascii :=
  if Ascii.eqb c dquote then Some dquote
  else if Ascii.eqb c "\" then Some "\"%char
  else if Ascii.eqb c "/" then Some "/"%char
  else if Ascii.eqb c "b" then Some (ascii_of_N 8)
  else if Ascii.eqb c "f" then Some (ascii_of_N 12)
  else if Ascii.eqb c "n" then Some (ascii_of_N 10)
  else if Ascii.eqb c "r" then Some (ascii_of_N 13)
  else if Ascii.eqb c "t" then Some (ascii_of_N 9)
  else None.

Definition unit_of_hex (hex : list N) : ascii :=
  let n := fold_left (fun a d => (a * 16 + d)%N) hex 0%N in
  if (n <? 256)%N then ascii_of_N n else "?"%char.

Definition lex_step (st : lstate) (c : ascii) : option (list token * lstate) :=
  match st with
  | LDefault => lex_default c
  | LStr acc =>
      if Ascii.eqb c dquote then Some ([TStr acc], LDefault)
      else if Ascii.eqb c "\" then Some ([], LEsc acc)
      else if (code c <? 32)%N then None
      else Some ([], LStr (snoc acc c))
  | LEsc acc =>
      if Ascii.eqb c "u" then Some ([], LUni acc [])
      else match escape_char c with
           | Some d => Some ([], LStr (snoc acc d))
           | None => None
           end
  | LUni acc hex =>
      match hex_value c with
      | Some d =>
          let hex' := (hex ++ [d])%list in
          if (List.length hex' =? 4)%nat
          then Some ([], LStr (snoc acc (unit_of_hex hex')))
          else Some ([], LUni acc hex')
      | None => None
      end
  | LNum acc ns =>
      match num_next ns c with
      | Some ns' => Some ([], LNum (snoc acc c) ns')
      | None =>
          if num_final ns then
            match lex_default c with
            | Some (toks, st') => Some (TNum acc :: toks, st')
            | None => None
            end
          else None
      end
  | LLit rest lit =>
      match rest with
      | "" => None
      | String d r =>
          if Ascii.eqb c d
          then (if r =? "" then Some ([lit_token lit], LDefault)
                else Some ([], LLit r lit))
          else None
      end
  end.

Definition lex_end (st : lstate) : option (list token) :=
  match st with
  | LDefault => Some []
  | LNum acc ns => if num_final ns then Some [TNum acc] else None
  | _ => None
  end.

Fixpoint lex (st : lstate) (s : string) : option (list token) :=
  match s with
  | "" => lex_end st
  | String c r =>
      match lex_step st c with
      | Some (toks, st') =>
          match lex st' r with
          | Some rest => Some (toks ++ rest)%list
          | None => None
          end
      | None => None
      end
  end.

(** Own properties in the order JavaScript enumerates them: array-index
    keys first, ascending, then the other keys in order of creation.
    Defining a key again keeps its place and replaces its value. *)
Fixpoint obj_replace (k : string) (v : value) (props : list (string * value))
  : list (string * value) :=
  match props with
  | [] => []
  | (k', v') :: r =>
      if k =? k' then (k', v) :: r else (k', v') :: obj_replace k v r
  end.

Fixpoint obj_insert_index (n : N) (k : string) (v : value)
  (props : list (string * value)) : list (string * value) :=
  match props with
  | [] => [(k, v)]
  | (k', v') :: r =>
      match array_index k' with
      | Some m => if (m <? n)%N then (k', v') :: obj_insert_index n k v r
                  else (k, v) :: props
      | None => (k, v) :: props
      end
  end.

Definition obj_set (props : list (string * value)) (k : string) (v : value)
  : list (string * value) :=
  match lookup k props with
  | Some _ => obj_replace k v props
  | None =>
      match array_index k with
      | Some n => obj_insert_index n k v props
      | None => (props ++ [(k, v)])%list
      end
  end.

(** An open container: the elements read so far (last first), or the
    properties read so far and the key whose value is awaited. *)
Inductive frame : Type :=
| FArr (items : list value)
| FObj (props : list (string * value)) (key : string).

Inductive pstate : Type :=
| PValue (stk : list frame)      (* a value must follow *)
| PFirst (stk : list frame)      (* after "[": a value or "]" *)
| PKeyFirst (stk : list frame)   (* after "{": a key or "}" *)
| PKey (stk : list frame)        (* after "," in an object: a key *)
| PColon (stk : list frame)      (* after a key: ":" *)
| PAfter (stk : list frame)      (* after a member: "," or the bracket *)
| PDone (v : value).             (* the whole value has been read *)

Definition deliver (v : value) (stk : list frame) : pstate :=
  match stk with
  | [] => PDone v
  | FArr items :: r => PAfter (FArr (v :: items) :: r)
  | FObj props k :: r => PAfter (FObj (obj_set props k v) k :: r)
  end.

Definition scalar_of (t : token) : option value :=
  match t with
  | TStr s => Some (JStr s)
  | TNum l => Some (JNum l)
  | TTrue => Some (JBool true)
  | TFalse => Some (JBool false)
  | TNull => Some JNull
  | _ => None
  end.

Definition close_array (stk : list frame) : option pstate :=
  match stk with
  | FArr items :: r => Some (deliver (JArr (rev items)) r)
  | _ => None
  end.

Definition close_object (stk : list frame) : option pstate :=
  match stk with
  | FObj props _ :: r => Some (deliver (JObj props) r)
  | _ => None
  end.

Definition set_key (k : string) (stk : list frame) : option pstate :=
  match stk with
  | FObj props _ :: r => Some (PColon (FObj props k :: r))
  | _ => None
  end.

Definition open_value (t : token) (stk : list frame) : option pstate :=
  match t with
  | TLBrack => Some (PFirst (FArr [] :: stk))
  | TLBrace => Some (PKeyFirst (FObj [] "" :: stk))
  | _ => match scalar_of t with
         | Some v => Some (deliver v stk)
         | None => None
         end
  end.

Definition parse_step (st : pstate) (t : token) : option pstate :=
  match st with
  | PValue stk => open_value t stk
  | PFirst stk =>
      match t with
      | TRBrack => close_array stk
      | _ => open_value t stk
      end
  | PKeyFirst stk =>
      match t with
      | TStr k => set_key k stk
      | TRBrace => close_object stk
      | _ => None
      end
  | PKey stk =>
      match t with
      | TStr k => set_key k stk
      | _ => None
      end
  | PColon stk =>
      match t with
      | TColon => Some (PValue stk)
      | _ => None
      end
  | PAfter stk =>
      match t with
      | TComma => match stk with
                  | FArr _ :: _ => Some (PValue stk)
                  | FObj _ _ :: _ => Some (PKey stk)
                  | [] => None
                  end
      | TRBrack => close_array stk
      | TRBrace => close_object stk
      | _ => None
      end
  | PDone _ => None
  end.

Fixpoint parse_tokens (st : pstate) (toks : list token) : option value :=
  match toks with
  | [] => match st with PDone v => Some v | _ => None end
  | t :: r =>
      match parse_step st t with
      | Some st' => parse_tokens st' r
      | None => None
      end
  end.

Definition parse_text (text : string) : option value :=
  match lex LDefault text with
  | Some toks => parse_tokens (PValue []) toks
  | None => None
  end.

(** [JSON.parse(text)] *)
Definition JSON_parse (text : string) : result value :=
  match parse_text text with
  | Some v => Ok v
  | None => Throw SyntaxError
  end.


(** ** [JSON.stringify] and [toString] *)

Definition hex_digit (n : N) : ascii :=
  if (n <? 10)%N then ascii_of_N (48 + n) else ascii_of_N (87 + n).

(** One code unit inside a quoted JSON string. *)
Definition quote_unit (c : ascii) : string :=
  let n := code c in
  if Ascii.eqb c dquote then String "\" (String dquote "")
  else if Ascii.eqb c "\" then "\\"
  else if (n =? 8)%N then "\b"
  else if (n =? 12)%N then "\f"
  else if (n =? 10)%N then "\n"
  else if (n =? 13)%N then "\r"
  else if (n =? 9)%N then "\t"
  else if (n <? 32)%N
       then "\u00" ++ String (hex_digit (n / 16)) (String (hex_digit (n mod 16)) "")
  else String c "".

Fixpoint quote_units (s : string) : string :=
  match s with
  | "" => ""
  | String c r => quote_unit c ++ quote_units r
  end.

Definition quote (s : string) : string :=
  String dquote (quote_units s ++ String dquote "").

(** [JSON.stringify(v)]; [None] is the result [undefined].  An [undefined]
    element of an array is written [null]; a property whose value is
    [undefined] is left out. *)
Fixpoint JSON_stringify (v : value) : option string :=
  match v with
  | JUndefined => None
  | JNull => Some "null"
  | JBool b => Some (if b then "true" else "false")
  | JNum l => Some l
  | JStr s => Some (quote s)
  | JArr items =>
      Some ("[" ++
            join "," (map (fun x => match JSON_stringify x with
                                    | Some t => t
                                    | None => "null"
                                    end) items)
            ++ "]")
  | JObj props =>
      Some ("{" ++
            join ","
              ((fix members (ps : list (string * value)) : list string :=
                  match ps with
                  | [] => []
                  | (k, x) :: r =>
                      match JSON_stringify x with
                      | Some t => (quote k ++ ":" ++ t) :: members r
                      | None => members r
                      end
                  end) props)
            ++ "}")
  end.

(** [ToString(v)] for a value that came out of [JSON.parse]: an array is
    its elements joined by commas ([null] and [undefined] elements give
    the empty string); an object is ["[object Object]"], unless it has an
    own property [toString], which is no function and makes the
    conversion throw. *)
Fixpoint ToString (v : value) : result string :=
  match v with
  | JUndefined => Ok "undefined"
  | JNull => Ok "null"
  | JBool b => Ok (if b then "true" else "false")
  | JNum l => Ok l
  | JStr s => Ok s
  | JArr items =>
      parts <- (fix each (l : list value) : result (list string) :=
                  match l with
                  | [] => Ok []
                  | x :: r =>
                      t <- (if nullish x then Ok "" else ToString x) ;;
                      ts <- each r ;;
                      Ok (t :: ts)
                  end) items ;;
      Ok (join "," parts)
  | JObj props =>
      match lookup "toString" props with
      | Some _ => Throw TypeError
      | None => Ok "[object Object]"
      end
  end.

(** [v.toString()] *)
Definition call_toString (v : value) : result string :=
  if nullish v then Throw TypeError else ToString v.

(** [arr.join(sep)] *)
Fixpoint join_values (l : list value) : result (list string) :=
  match l with
  | [] => Ok []
  | x :: r =>
      t <- (if nullish x then Ok "" else ToString x) ;;
      ts <- join_values r ;;
      Ok (t :: ts)
  end.

(** ** The regular expressions of the file *)

Definition fence : string := "```".

(** [true] when [s] begins with [p]. *)
Fixpoint starts_with (p s : string) : bool :=
  match p with
  | "" => true
  | String a p' =>
      match s with
      | "" => false
      | String b s' => (Ascii.eqb a b && starts_with p' s')%bool
      end
  end.

Fixpoint drop (n : nat) (s : string) : string :=
  match n, s with
  | O, _ => s
  | S m, String _ r => drop m r
  | S _, "" => ""
  end.

(** [(?:json)?] under the [i] flag, at the head of [s]. *)
Definition skip_json (s : string) : string :=
  match s with
  | String a (String b (String c (String d r))) =>
      if (Ascii.eqb (lower_char a) "j" && Ascii.eqb (lower_char b) "s" &&
          Ascii.eqb (lower_char c) "o" && Ascii.eqb (lower_char d) "n")%bool
      then r else s
  | _ => s
  end.

(** [s.replace(/```(?:json)?\s*/i, '')]: the first fence of [s], wherever
    it stands, goes with an optional [json] tag and the whitespace that
    follows. *)
Fixpoint remove_open_fence (s : string) : string :=
  match s with
  | "" => ""
  | String c r =>
      if starts_with fence s then ltrim (skip_json (drop 3 s))
      else String c (remove_open_fence r)
  end.

(** [Some p] when [s] is [p] followed by a fence that ends [s]. *)
Fixpoint strip_final_fence (s : string) : option string :=
  match s with
  | "" => None
  | String c r =>
      if s =? fence then Some ""
      else match strip_final_fence r with
           | Some p => Some (String c p)
           | None => None
           end
  end.

(** [s.replace(/\s*```$/i, '')]: a fence that ends [s] goes with the
    whitespace before it. *)
Definition remove_close_fence (s : string) : string :=
  match strip_final_fence s with
  | Some p => rtrim p
  | None => s
  end.

(** [candidate.replace(/```(?:json)?\s*/i, '').replace(/\s*```$/i, '').trim()]
    (lines 247 and 390). *)
Definition clean (candidate : string) : string :=
  trim (remove_close_fence (remove_open_fence candidate)).

Fixpoint drop_last_quote (s : string) : string :=
  match s with
  | "" => ""
  | String c r =>
      if (Ascii.eqb c dquote && (r =? ""))%bool then ""
      else String c (drop_last_quote r)
  end.

(** [cleaned.replace(/^\"|\"$/g, '')]: a quote that opens the string and a
    quote that ends it are removed. *)
Definition unquote (s : string) : string :=
  match s with
  | String c r => if Ascii.eqb c dquote then drop_last_quote r
                  else drop_last_quote s
  | "" => ""
  end.

(** [s.replace(/ab/g, rep)] for a pattern of two literal characters. *)
Fixpoint replace_pair (a b : ascii) (rep : string) (s : string) : string :=
  match s with
  | "" => ""
  | String c r =>
      match r with
      | String d r' =>
          if (Ascii.eqb c a && Ascii.eqb d b)%bool
          then rep ++ replace_pair a b rep r'
          else String c (replace_pair a b rep r)
      | "" => String c ""
      end
  end.

(** [cleaned.replace(/\\n/g, '').replace(/\\r/g, '').replace(/\\"/g, '"')]
    (line 266). *)
Definition unescape (s : string) : string :=
  replace_pair "\" dquote (String dquote "")
    (replace_pair "\" "r" "" (replace_pair "\" "n" "" s)).

(** [text.match(/{[\s\S]*?}/g) || []]: from each opening brace to the first
    closing brace after it; [cur] is the span being read, if any. *)
Fixpoint brace_spans_from (cur : option string) (s : string) : list string :=
  match s with
  | "" => []
  | String c r =>
      match cur with
      | None =>
          if Ascii.eqb c "{" then brace_spans_from (Some "{") r
          else brace_spans_from None r
      | Some acc =>
          if Ascii.eqb c "}" then snoc acc c :: brace_spans_from None r
          else brace_spans_from (Some (snoc acc c)) r
      end
  end.

Definition brace_spans (s : string) : list string := brace_spans_from None s.

(** [s.replace(/\s+/g, ' ')]: each run of whitespace becomes one space;
    [in_run] tells that the run in progress has been written already. *)
Fixpoint collapse_from (in_run : bool) (s : string) : string :=
  match s with
  | "" => ""
  | String c r =>
      if is_space c
      then (if in_run then collapse_from true r
            else String " " (collapse_from true r))
      else String c (collapse_from false r)
  end.

Definition collapse_spaces (s : string) : string := collapse_from false s.

(** ** The component: [parseNestedClauses] *)

(** A normalized clause, the object literal of lines 231-237. *)
Record Clause : Type := mkClause {
  id : value;
  text : value;
  type : value;
  risk : string;
  implications : value
}.

(** [arr.map((item, idx) => f(item, idx))], the first exception of [f]
    ending the map. *)
Fixpoint map_from {A B} (f : A -> nat -> result B) (idx : nat) (l : list A)
  : result (list B) :=
  match l with
  | [] => Ok []
  | x :: r =>
      y <- f x idx ;;
      ys <- map_from f (S idx) r ;;
      Ok (y :: ys)
  end.

Definition array_map {A B} (f : A -> nat -> result B) (l : list A)
  : result (list B) := map_from f 0 l.

(** The arrow function of [normalize] (lines 231-237). *)
Definition normalize_item (item : value) (idx : nat) : result Clause :=
  text_ <- (get item "clause_text" ?? get item "text" ?? Ok (JStr "")) ;;
  type_ <- (get item "clause_type_category" ?? get item "clause_type"
            ?? get item "type" ?? Ok (JStr "Unspecified")) ;;
  risk_ <- (get item "risk_level" ?? get item "risk" ?? Ok (JStr "moderate")) ;;
  risk_s <- call_toString risk_ ;;
  implications_ <- (get item "brief_explanation_of_implications"
                    ?? get item "implications" ?? Ok JNull) ;;
  Ok {| id := JNum (decimal idx);
        text := text_;
        type := type_;
        risk := toLowerCase risk_s;
        implications := implications_ |}.

Definition normalize (arr : list value) : result (list Clause) :=
  array_map normalize_item arr.

(** The arrow function of the last resort (lines 324-333). *)
Definition direct_item (it : value) (idx : nat) : result Clause :=
  id_ <- (get it "id" ?? Ok JNull) ;;
  text_ <- (get it "text" ?? get it "clause_text" ?? Ok (JStr "")) ;;
  type_ <- (get it "type" ?? get it "clause_type" ?? get it "category"
            ?? Ok (JStr "Unspecified")) ;;
  risk_ <- (get it "risk" ?? get it "risk_level" ?? Ok (JStr "moderate")) ;;
  risk_s <- call_toString risk_ ;;
  implications_ <- (get it "implications" ?? Ok JNull) ;;
  Ok {| id := id_;
        text := text_;
        type := type_;
        risk := toLowerCase risk_s;
        implications := implications_ |}.

(** [rawData?.clauses?.[0]?.k] *)
Definition first_clause_field (rawData : value) (k : string) : value :=
  opt_get (opt_get (opt_get rawData "clauses") "0") k.

(** Lines 240-243: [block], then [candidate], [None] standing for
    [null]. *)
Definition candidate_of (rawData : value) : option string :=
  let block :=
    coalesce (first_clause_field rawData "text")
      (coalesce (first_clause_field rawData "body") JNull) in
  match block with
  | JStr s => Some s
  | _ => None
  end.

(** The body shared by the [try] blocks: parse, and return the normalized
    array when the parse gave an array. *)
Definition parse_array (s : string) : result (option (list Clause)) :=
  parsed <- JSON_parse s ;;
  match parsed with
  | JArr items => r <- normalize items ;; Ok (Some r)
  | _ => Ok None
  end.

(** Lines 248-253. *)
Definition strict_parse (cleaned : string) : option (list Clause) :=
  try_catch (parse_array cleaned).

(** Lines 256-262. *)
Definition unquote_parse (cleaned : string) : option (list Clause) :=
  try_catch (parse_array (unquote cleaned)).

(** Lines 265-271. *)
Definition unescape_parse (cleaned : string) : option (list Clause) :=
  try_catch (parse_array (unescape cleaned)).

(** The array between the first "[" and the last "]" of [s] (lines 274-284
    and 307-317). *)
Definition bracket_parse (s : string) : option (list Clause) :=
  let firstBracket := indexOf "[" s in
  let lastBracket := lastIndexOf "]" s in
  if (negb (firstBracket =? -1) && negb (lastBracket =? -1)
      && (firstBracket <? lastBracket))%Z
  then try_catch (parse_array (substring firstBracket (lastBracket + 1) s))
  else None.

(** The loop of lines 290-297 and 374-381: each match is parsed on its
    own, and pushed when the parse succeeds. *)
Definition collect_objects (matches : list string) : list value :=
  fold_left (fun objs m =>
               match JSON_parse m with
               | Ok p => (objs ++ [p])%list
               | Throw _ => objs
               end) matches [].

(** Lines 287-301. *)
Definition object_scan (cleaned : string) : option (list Clause) :=
  try_catch
    (let objs := collect_objects (brace_spans cleaned) in
     if (0 <? List.length objs)%nat
     then r <- normalize objs ;; Ok (Some r)
     else Ok None).

(** The first of two attempts that returns. *)
Definition or_else {A} (a b : option A) : option A :=
  match a with
  | Some _ => a
  | None => b
  end.
Infix "|||" := or_else (at level 50, left associativity).

(** Lines 246-302: what the block under [if (candidate)] returns, if it
    returns. *)
Definition candidate_tiers (candidate : string) : option (list Clause) :=
  if candidate =? "" then None
  else
    let cleaned := clean candidate in
    strict_parse cleaned ||| unquote_parse cleaned ||| unescape_parse cleaned
    ||| bracket_parse cleaned ||| object_scan cleaned.

(** Lines 305-320. *)
Definition payload_scan (rawData : value) : option (list Clause) :=
  match JSON_stringify rawData with
  | Some asString => bracket_parse asString
  | None => None
  end.

(** Lines 323-337. *)
Definition direct_array (rawData : value) : result (list Clause) :=
  match opt_get rawData "clauses" with
  | JArr items => array_map direct_item items
  | _ => Ok []
  end.

(** Everything that returns through [normalize]: lines 246-320. *)
Definition normalized_tiers (rawData : value) : option (list Clause) :=
  match candidate_of rawData with
  | Some candidate => candidate_tiers candidate
  | None => None
  end
  ||| payload_scan rawData.

Definition parseNestedClauses (rawData : value) : result (list Clause) :=
  if negb (truthy rawData) then Ok []
  else
    match normalized_tiers rawData with
    | Some r => Ok r
    | None => direct_array rawData
    end.

(** ** [extractObjectsFromText], [parseMethod], [generateSummary] *)

(** Lines 369-386. *)
Definition extractObjectsFromText (text : string) : list value :=
  if text =? "" then [] else collect_objects (brace_spans text).

Record ExtractionResult : Type := mkResult {
  records : list Clause;
  method : string;
  cleanedBlock : option string
}.

(** Lines 366 and 389-403: [parsedClauses], [cleanedInnerBlock],
    [objectClauses], [effectiveClauses] and [parseMethod], in the order
    the component evaluates them. *)
Definition extraction (extractedClausesRaw : value) : result ExtractionResult :=
  parsedClauses <- parseNestedClauses extractedClausesRaw ;;
  let _innerBlockRaw :=
    coalesce (first_clause_field extractedClausesRaw "text") JNull in
  cleanedInnerBlock <-
    (if truthy _innerBlockRaw
     then match _innerBlockRaw with
          | JStr s => Ok (Some (clean s))
          | _ => Throw TypeError
          end
     else Ok None) ;;
  let objectMatches :=
    match cleanedInnerBlock with
    | Some c => if c =? "" then [] else extractObjectsFromText c
    | None => []
    end in
  objectClauses <- array_map normalize_item objectMatches ;;
  let effectiveClauses :=
    if (0 <? List.length parsedClauses)%nat then parsedClauses
    else objectClauses in
  let cleaned_truthy :=
    match cleanedInnerBlock with
    | Some c => negb (c =? "")
    | None => false
    end in
  let parseMethod :=
    if (0 <? List.length parsedClauses)%nat then "array"
    else if (0 <? List.length objectClauses)%nat then "objects"
    else if cleaned_truthy then "raw-text" else "none" in
  Ok {| records := effectiveClauses;
        method := parseMethod;
        cleanedBlock := cleanedInnerBlock |}.

(** Text written with apostrophes for double quotes. *)
Fixpoint q (s : string) : string :=
  match s with
  | "" => ""
  | String c r => String (if Ascii.eqb c "'" then dquote else c) (q r)
  end.


(** [Array.from(new Set(l))] on strings: the first occurrence of each. *)
Fixpoint distinct_from (seen : list string) (l : list string) : list string :=
  match l with
  | [] => []
  | x :: r =>
      if existsb (String.eqb x) seen then distinct_from seen r
      else x :: distinct_from (x :: seen) r
  end.

Definition distinct (l : list string) : list string := distinct_from [] l.

Definition nonempty (s : string) : bool := negb (s =? "").

(** [(c.type || '').trim()] *)
Definition type_text (c : Clause) : result string :=
  if truthy (type c)
  then match type c with
       | JStr s => Ok (trim s)
       | _ => Throw TypeError
       end
  else Ok (trim "").

Fixpoint map_r {A B} (f : A -> result B) (l : list A) : result (list B) :=
  match l with
  | [] => Ok []
  | x :: r => y <- f x ;; ys <- map_r f r ;; Ok (y :: ys)
  end.

Definition no_summary : string := "No summary available.".

(** Lines 342-363. *)
Definition generateSummary (rawData : value) (parsedClauses : list Clause)
  : result string :=
  let backendSummary := opt_get rawData "summary" in
  let explicit :=
    match backendSummary with
    | JStr s =>
        if (truthy backendSummary && (0 <? String.length (trim s))%nat)%bool
        then Some s else None
    | _ => None
    end in
  match explicit with
  | Some s => Ok s
  | None =>
      if (List.length parsedClauses =? 0)%nat then Ok no_summary
      else
        let take := firstn 5 parsedClauses in
        types <- map_r type_text take ;;
        let categories := distinct (filter nonempty types) in
        let implications_ :=
          firstn 5 (filter truthy (map implications take)) in
        let risks :=
          distinct (filter nonempty (map (fun c => toLowerCase (risk c)) take)) in
        let catPart :=
          if (0 <? List.length categories)%nat
          then join ", " (firstn 4 categories)
          else "general contractual terms" in
        let riskPart :=
          if (0 <? List.length risks)%nat
          then "Risks identified: " ++ join ", " risks ++ "."
          else "" in
        implicPart <-
          (if (0 <? List.length implications_)%nat
           then parts <- join_values implications_ ;;
                Ok ("Notable implications include " ++ join "; " parts ++ ".")
           else Ok "") ;;
        Ok (trim (collapse_spaces
                    ("This document contains clauses related to " ++ catPart
                     ++ ". " ++ implicPart ++ " " ++ riskPart)))
  end.

(** [true] when [c] occurs in [s]. *)
Fixpoint occurs (c : ascii) (s : string) : bool :=
  match s with
  | "" => false
  | String d r => (Ascii.eqb c d || occurs c r)%bool
  end.

(** [true] when [s] contains a fence. *)
Fixpoint has_fence (s : string) : bool :=
  match s with
  | "" => false
  | String _ r => (starts_with fence s || has_fence r)%bool
  end.

(** Invariants of the parser's stack, used in the proofs: the outermost
    open container is an object ([object_below]); the stack is neither
    empty nor the single empty array ([not_empty_array]). *)
Fixpoint object_below (stk : list frame) : bool :=
  match stk with
  | [] => false
  | [FObj _ _] => true
  | [FArr _] => false
  | _ :: r => object_below r
  end.

Definition yields_object (st : pstate) : bool :=
  match st with
  | PValue stk | PFirst stk | PKeyFirst stk | PKey stk | PColon stk
  | PAfter stk => object_below stk
  | PDone (JObj _) => true
  | PDone _ => false
  end.

Definition not_empty_array (stk : list frame) : bool :=
  match stk with
  | [] => false
  | [FArr []] => false
  | _ => true
  end.

Definition yields_other (st : pstate) : bool :=
  match st with
  | PValue stk | PFirst stk | PKeyFirst stk | PKey stk | PColon stk
  | PAfter stk => not_empty_array stk
  | PDone (JArr []) => false
  | PDone _ => true
  end.

Definition is_bracket (t : token) : bool :=
  match t with
  | TLBrack | TRBrack => true
  | _ => false
  end.

(** The records whose [id] is their position. *)
Definition indexed (recs : list Clause) : Prop :=
  forall i r, nth_error recs i = Some r -> id r = JNum (decimal i).

(** The shape of a record: [text] and [type] are never [null] or
    [undefined], [risk] is in lower case, [implications] is never
    [undefined]. *)
Definition canonical (r : Clause) : Prop :=
  nullish (text r) = false /\
  nullish (type r) = false /\
  toLowerCase (risk r) = risk r /\
  implications r <> JUndefined.

(** [parsed.filter(c => (c.risk ?? '') === level).length] (lines 499-501). *)
Definition riskCount (level : string) (parsed : list Clause) : nat :=
  List.length (filter (fun c => risk c =? level) parsed).

(** The record made of an object that has none of the fields read. *)
Definition default_clause (idx : nat) : Clause :=
  mkClause (JNum (decimal idx)) (JStr "") (JStr "Unspecified") "moderate" JNull.

(** The number of objects in a value, itself included. *)
Fixpoint objects_in (v : value) : nat :=
  match v with
  | JArr items =>
      (fix sum (l : list value) : nat :=
         match l with
         | [] => 0
         | x :: r => objects_in x + sum r
         end) items
  | JObj props =>
      S ((fix sum (ps : list (string * value)) : nat :=
            match ps with
            | [] => 0
            | (_, x) :: r => objects_in x + sum r
            end) props)
  | _ => 0
  end.

Fixpoint objects_in_list (l : list value) : nat :=
  match l with
  | [] => 0
  | x :: r => objects_in x + objects_in_list r
  end.

Fixpoint objects_in_props (ps : list (string * value)) : nat :=
  match ps with
  | [] => 0
  | (_, x) :: r => objects_in x + objects_in_props r
  end.

(** The objects already built inside the open containers. *)
Fixpoint objects_in_stack (stk : list frame) : nat :=
  match stk with
  | [] => 0
  | FArr items :: r => objects_in_list items + objects_in_stack r
  | FObj props _ :: r => objects_in_props props + objects_in_stack r
  end.

Definition objects_in_state (st : pstate) : nat :=
  match st with
  | PValue stk | PFirst stk | PKeyFirst stk | PKey stk | PColon stk
  | PAfter stk => objects_in_stack stk
  | PDone v => objects_in v
  end.

Fixpoint closing_braces (toks : list token) : nat :=
  match toks with
  | [] => 0
  | TRBrace :: r => S (closing_braces r)
  | _ :: r => closing_braces r
  end.

Fixpoint count_char (c : ascii) (s : string) : nat :=
  match s with
  | "" => 0
  | String d r => (if Ascii.eqb c d then 1 else 0) + count_char c r
  end.

(** The lexer run over a text without ending it: the tokens written and
    the state reached. *)
Fixpoint lex_run (st : lstate) (s : string) : option (list token * lstate) :=
  match s with
  | "" => Some ([], st)
  | String c r =>
      match lex_step st c with
      | Some (toks, st') =>
          match lex_run st' r with
          | Some (rest, st'') => Some ((toks ++ rest)%list, st'')
          | None => None
          end
      | None => None
      end
  end.


(** A JSON number literal. *)
Definition valid_number (l : string) : bool :=
  match lex_run LDefault l with
  | Some ([], LNum acc ns) => (num_final ns && (acc =? l))%bool
  | _ => false
  end.

(** The properties in the order in which an object built by assigning
    them one after the other lists them. *)
Definition rebuild (props : list (string * value)) : list (string * value) :=
  fold_left (fun acc kv => obj_set acc (fst kv) (snd kv)) props [].

(** A value as [JSON.parse] makes them: no [undefined], numbers that are
    JSON literals, objects that list each property once, in JavaScript's
    order. *)
Fixpoint well_formed (v : value) : Prop :=
  match v with
  | JUndefined => False
  | JNull | JBool _ | JStr _ => True
  | JNum l => valid_number l = true
  | JArr items =>
      (fix all (l : list value) : Prop :=
         match l with
         | [] => True
         | x :: r => well_formed x /\ all r
         end) items
  | JObj props =>
      rebuild props = props /\
      (fix all (ps : list (string * value)) : Prop :=
         match ps with
         | [] => True
         | (_, x) :: r => well_formed x /\ all r
         end) props
  end.

Fixpoint well_formed_list (l : list value) : Prop :=
  match l with
  | [] => True
  | x :: r => well_formed x /\ well_formed_list r
  end.

Fixpoint well_formed_props (ps : list (string * value)) : Prop :=
  match ps with
  | [] => True
  | (_, x) :: r => well_formed x /\ well_formed_props r
  end.

(** The tokens of the text that [JSON.stringify] writes for a value. *)
Fixpoint tokens_of (v : value) : list token :=
  match v with
  | JUndefined => []
  | JNull => [TNull]
  | JBool true => [TTrue]
  | JBool false => [TFalse]
  | JNum l => [TNum l]
  | JStr s => [TStr s]
  | JArr items =>
      TLBrack ::
      ((fix elems (l : list value) : list token :=
          match l with
          | [] => []
          | x :: r =>
              tokens_of x ++
              match r with
              | [] => []
              | _ :: _ => TComma :: elems r
              end
          end) items ++ [TRBrack])%list
  | JObj props =>
      TLBrace ::
      ((fix members (ps : list (string * value)) : list token :=
          match ps with
          | [] => []
          | (k, x) :: r =>
              TStr k :: TColon :: tokens_of x ++
              match r with
              | [] => []
              | _ :: _ => TComma :: members r
              end
          end) props ++ [TRBrace])%list
  end.

Fixpoint elems_tokens (l : list value) : list token :=
  match l with
  | [] => []
  | x :: r =>
      (tokens_of x ++
       match r with
       | [] => []
       | _ :: _ => TComma :: elems_tokens r
       end)%list
  end.

Fixpoint members_tokens (ps : list (string * value)) : list token :=
  match ps with
  | [] => []
  | (k, x) :: r =>
      (TStr k :: TColon :: tokens_of x ++
       match r with
       | [] => []
       | _ :: _ => TComma :: members_tokens r
       end)%list
  end.

(** The text of a value inside an array. *)
Definition element_text (x : value) : string :=
  match JSON_stringify x with
  | Some t => t
  | None => "null"
  end.

(** The texts of the properties that are written. *)
Fixpoint members_text (ps : list (string * value)) : list string :=
  match ps with
  | [] => []
  | (k, x) :: r =>
      match JSON_stringify x with
      | Some t => (quote k ++ ":" ++ t) :: members_text r
      | None => members_text r
      end
  end.

(** What may follow a value in a JSON text. *)
Definition delimited (rest : string) : bool :=
  match rest with
  | "" => true
  | String c _ => (Ascii.eqb c "," || Ascii.eqb c "]" || Ascii.eqb c "}")%bool
  end.


(** The lexer reads the text of a value back into its tokens. *)
Definition lexes_back (v : value) : Prop :=
  well_formed v -> forall rest, delimited rest = true ->
  lex LDefault (element_text v ++ rest)
  = option_map (app (tokens_of v)) (lex LDefault rest).

(** The parser reads the tokens of a value back into the value. *)
Definition parses_back (v : value) : Prop :=
  well_formed v -> forall stk rest,
  parse_tokens (PValue stk) (tokens_of v ++ rest)
  = parse_tokens (deliver v stk) rest.

(** The property names that [normalize] reads. *)
Definition field_names : list string :=
  ["clause_text"; "text"; "clause_type_category"; "clause_type"; "type";
   "risk_level"; "risk"; "brief_explanation_of_implications"; "implications"].

(** A value whose [toString] is that of a primitive. *)
Definition printable (v : value) : bool :=
  match v with
  | JArr _ | JObj _ => false
  | _ => true
  end.

(** An object whose risk fields, when present, hold primitives. *)
Definition plain_item (x : value) : bool :=
  match x with
  | JObj props =>
      (match lookup "risk_level" props with
       | Some v => printable v
       | None => true
       end
       && match lookup "risk" props with
          | Some v => printable v
          | None => true
          end)%bool
  | _ => false
  end.

(** The payload [{clauses: [{text: s}]}]. *)
Definition text_payload (s : string) : value :=
  JObj [("clauses", JArr [JObj [("text", JStr s)]])].








(** * Properties *)

(** ** Strings *)

Lemma append_nil_r (s : string) : s ++ "" = s.
Proof. induction s as [|c r IH]; simpl; [reflexivity | now rewrite IH]. Qed.

Lemma append_assoc (s t u : string) : (s ++ t) ++ u = s ++ t ++ u.
Proof. induction s as [|c r IH]; simpl; [reflexivity | now rewrite IH]. Qed.

(** ** Trimming and fences *)

Lemma ltrim_idem (s : string) : ltrim (ltrim s) = ltrim s.
Proof.
  induction s as [|c r IH]; simpl; [reflexivity|].
  destruct (is_space c) eqn:E; [exact IH|]. simpl. now rewrite E.
Qed.

Lemma rtrim_idem (s : string) : rtrim (rtrim s) = rtrim s.
Proof.
  induction s as [|c r IH]; simpl; [reflexivity|].
  destruct (rtrim r) as [|d r'] eqn:E.
  - destruct (is_space c) eqn:Ec; simpl; [reflexivity|]. now rewrite Ec.
  - simpl in *. now rewrite IH.
Qed.

Lemma rtrim_ltrim (s : string) : rtrim (ltrim s) = ltrim (rtrim s).
Proof.
  induction s as [|c r IH]; simpl; [reflexivity|].
  destruct (is_space c) eqn:Ec.
  - rewrite IH. destruct (rtrim r) as [|d r'] eqn:E; simpl; [reflexivity|].
    now rewrite Ec.
  - simpl. destruct (rtrim r); simpl; now rewrite Ec.
Qed.

Lemma trim_idem (s : string) : trim (trim s) = trim s.
Proof.
  unfold trim. now rewrite (rtrim_ltrim (rtrim s)), rtrim_idem, ltrim_idem.
Qed.

Lemma no_fence_open (s : string) :
  has_fence s = false -> remove_open_fence s = s.
Proof.
  induction s as [|c r IH]; [reflexivity|].
  cbn [has_fence remove_open_fence]. intros H.
  apply orb_false_iff in H as [H1 H2]. rewrite H1. now rewrite IH.
Qed.

Lemma no_fence_final (s : string) :
  has_fence s = false -> strip_final_fence s = None.
Proof.
  induction s as [|c r IH]; [reflexivity|].
  cbn [has_fence strip_final_fence]. intros H.
  apply orb_false_iff in H as [H1 H2].
  destruct (String c r =? fence) eqn:E.
  - apply String.eqb_eq in E. rewrite E in H1. discriminate.
  - now rewrite IH.
Qed.

Lemma clean_no_fence (s : string) : has_fence s = false -> clean s = trim s.
Proof.
  intros H. unfold clean, remove_close_fence.
  now rewrite (no_fence_open s H), (no_fence_final s H).
Qed.

Lemma clean_trimmed (s : string) : trim (clean s) = clean s.
Proof. unfold clean. apply trim_idem. Qed.

(** ** The fence cleaning step (C8) *)

(** C8, counterexample: on six backquotes followed by [a] the cleaning step
    removes only the first fence, so cleaning the result again removes the
    second one: the step is not idempotent. *)
Lemma clean_not_idempotent :
  clean (clean "``````a") <> clean "``````a".
Proof. vm_compute. discriminate. Qed.

(** C8, as corrected: the cleaning step is a total function; on an input
    with no fence marker it returns the input trimmed; and when its result
    holds no fence marker, cleaning that result again changes nothing. *)
Theorem clean_idempotent_without_fence (s : string) :
  (has_fence s = false -> clean s = trim s) /\
  (has_fence (clean s) = false -> clean (clean s) = clean s).
Proof.
  split.
  - apply clean_no_fence.
  - intros H. rewrite (clean_no_fence _ H). apply clean_trimmed.
Qed.

Lemma clean_idempotent_without_fence_witness :
  has_fence "  [1] " = false /\
  clean "  [1] " = trim "  [1] " /\
  has_fence (clean "  [1] ") = false /\
  clean (clean "  [1] ") = clean "  [1] ".
Proof.
  destruct (clean_idempotent_without_fence "  [1] ") as [H1 H2].
  split; [reflexivity|]. split; [apply H1; reflexivity|].
  split; [reflexivity|]. apply H2; reflexivity.
Defined.

(** ** Unescaping (C4) *)











(** ** The summary (C9) *)

(** C9, counterexample: a summary field holding one space is a non-empty
    string, yet it is not returned. *)
Lemma blank_summary_not_returned :
  generateSummary (JObj [("summary", JStr " ")]) [] <> Ok " ".
Proof. vm_compute. discriminate. Qed.

Lemma trim_nonempty_length (s : string) :
  trim s <> "" -> (0 <? String.length (trim s))%nat = true.
Proof. destruct (trim s); [congruence|reflexivity]. Qed.

(** C9, as corrected: a [summary] that is a string with a character other
    than whitespace is returned as it is, whatever the records; with no
    such summary and no records the result is the fixed sentence. *)
Theorem generateSummary_precedence (rawData : value) (parsedClauses : list Clause) :
  (forall s, opt_get rawData "summary" = JStr s -> trim s <> "" ->
             generateSummary rawData parsedClauses = Ok s) /\
  ((forall s, opt_get rawData "summary" = JStr s -> trim s = "") ->
   generateSummary rawData [] = Ok no_summary).
Proof.
  split.
  - intros s H Hs. unfold generateSummary. rewrite H.
    rewrite (trim_nonempty_length s Hs).
    destruct s; [exfalso; apply Hs; reflexivity|]. reflexivity.
  - intros H. unfold generateSummary.
    destruct (opt_get rawData "summary") eqn:E; try reflexivity.
    rewrite (H s eq_refl). cbn. now rewrite andb_false_r.
Qed.

Lemma generateSummary_precedence_witness :
  generateSummary (JObj [("summary", JStr "Lease of 12 months.")]) []
    = Ok "Lease of 12 months." /\
  generateSummary (JObj [("clauses", JArr [])]) [] = Ok no_summary.
Proof.
  split.
  - apply (proj1 (generateSummary_precedence
                    (JObj [("summary", JStr "Lease of 12 months.")]) [])
             "Lease of 12 months."); [reflexivity | vm_compute; discriminate].
  - apply (proj2 (generateSummary_precedence (JObj [("clauses", JArr [])]) [])).
    intros s H. vm_compute in H. discriminate.
Defined.

(** ** The parser *)

Lemma deliver_object_below (v : value) (f : frame) (stk : list frame) :
  object_below (f :: stk) = true ->
  yields_object (deliver v (f :: stk)) = true.
Proof. destruct f, stk; simpl; trivial. Qed.

Lemma pop_object_below (v : value) (f : frame) (stk : list frame) :
  stk <> [] -> object_below (f :: stk) = true ->
  yields_object (deliver v stk) = true.
Proof.
  destruct stk as [|g r]; [congruence|]. intros _ H.
  apply deliver_object_below. destruct f; exact H.
Qed.

Lemma parse_step_object (st st' : pstate) (t : token) :
  yields_object st = true -> parse_step st t = Some st' ->
  yields_object st' = true.
Proof.
  intros H E.
  destruct st as [stk|stk|stk|stk|stk|stk|v]; simpl in H;
    try (destruct stk as [|f stk]; [discriminate|]).
  all: destruct t; simpl in E; try discriminate;
    try (injection E as <-);
    try (apply deliver_object_below; exact H);
    try (simpl; destruct f; exact H).
  all: try (destruct f; try discriminate; injection E as <-;
            destruct stk as [|g r];
            [ simpl in *; trivial; try discriminate
            | apply (pop_object_below _ (FObj [] "")); [discriminate|];
              simpl in *; destruct g, r; trivial ]).
  all: try (destruct f; try discriminate; injection E as <-; simpl in *;
            destruct stk; trivial).
Qed.

Lemma parse_tokens_object (toks : list token) (st : pstate) (v : value) :
  yields_object st = true -> parse_tokens st toks = Some v ->
  exists props, v = JObj props.
Proof.
  revert st. induction toks as [|t r IH]; intros st H E; simpl in E.
  - destruct st; try discriminate. injection E as <-.
    destruct v0; try discriminate. now eexists.
  - destruct (parse_step st t) as [st'|] eqn:S; [|discriminate].
    exact (IH st' (parse_step_object _ _ _ H S) E).
Qed.

(** A text that opens with a brace parses to an object, if it parses. *)
Lemma parse_text_brace (s : string) (v : value) :
  parse_text (String "{" s) = Some v -> exists props, v = JObj props.
Proof.
  unfold parse_text. cbn [lex]. change (lex_step LDefault "{") with
    (Some ([TLBrace], LDefault)).
  cbv iota beta.
  destruct (lex LDefault s) as [toks|]; [|intros E; discriminate E].
  cbn [app parse_tokens parse_step open_value].
  now apply parse_tokens_object.
Qed.

Lemma deliver_other (v : value) (f : frame) (stk : list frame) :
  yields_other (deliver v (f :: stk)) = true.
Proof. destruct f, stk; reflexivity. Qed.

Lemma close_array_other (stk : list frame) (st' : pstate) :
  not_empty_array stk = true -> close_array stk = Some st' ->
  yields_other st' = true.
Proof.
  destruct stk as [|[items|props k] r]; simpl; try discriminate.
  intros H E. injection E as <-. destruct r as [|g r].
  - destruct items as [|x items]; [discriminate|]. simpl.
    destruct (rev items); reflexivity.
  - apply deliver_other.
Qed.

Lemma close_object_other (stk : list frame) (st' : pstate) :
  close_array stk = None -> close_object stk = Some st' ->
  yields_other st' = true.
Proof.
  destruct stk as [|[items|props k] r]; simpl; try discriminate.
  intros _ E. injection E as <-. destruct r as [|g r].
  - reflexivity.
  - apply deliver_other.
Qed.

Lemma open_value_other (t : token) (f : frame) (stk : list frame) (st' : pstate) :
  open_value t (f :: stk) = Some st' -> yields_other st' = true.
Proof.
  destruct t; simpl; try discriminate; intros E; injection E as <-;
    try apply deliver_other; reflexivity.
Qed.

Lemma parse_step_other (st st' : pstate) (t : token) :
  yields_other st = true -> parse_step st t = Some st' ->
  yields_other st' = true.
Proof.
  intros H E.
  destruct st as [stk|stk|stk|stk|stk|stk|v]; simpl in H;
    try (destruct stk as [|f stk]; [discriminate|]); cbn [parse_step] in E.
  - eapply open_value_other; eassumption.
  - destruct t; try (eapply open_value_other; eassumption).
    eapply close_array_other; eassumption.
  - destruct t; try discriminate.
    + eapply close_object_other; [|eassumption].
      destruct f; [discriminate|reflexivity].
    + destruct f; [discriminate|]. injection E as <-. destruct stk; reflexivity.
  - destruct t; try discriminate.
    destruct f; [discriminate|]. injection E as <-. destruct stk; reflexivity.
  - destruct t; try discriminate. injection E as <-. exact H.
  - destruct t; try discriminate.
    + eapply close_object_other; [|eassumption].
      destruct f; [discriminate|reflexivity].
    + eapply close_array_other; eassumption.
    + destruct f; injection E as <-; exact H.
  - discriminate.
Qed.

Lemma parse_tokens_other (toks : list token) (st : pstate) :
  yields_other st = true -> parse_tokens st toks <> Some (JArr []).
Proof.
  revert st. induction toks as [|t r IH]; intros st H; simpl.
  - destruct st; try discriminate. simpl in H.
    destruct v as [| | | | |[|x l]|]; congruence.
  - destruct (parse_step st t) as [st'|] eqn:S; [|discriminate].
    exact (IH st' (parse_step_other _ _ _ H S)).
Qed.

(** The only tokens that make the empty array. *)
Lemma parse_tokens_empty_array (toks : list token) :
  parse_tokens (PValue []) toks = Some (JArr []) -> toks = [TLBrack; TRBrack].
Proof.
  destruct toks as [|t1 toks]; [discriminate|].
  destruct t1; simpl; try discriminate;
    try (destruct toks; [discriminate|simpl; discriminate]).
  - intros E. exfalso. revert E. now apply parse_tokens_other.
  - destruct toks as [|t2 toks]; [discriminate|]. cbn [parse_tokens].
    destruct (parse_step (PFirst [FArr []]) t2) as [st'|] eqn:S; [|discriminate].
    destruct t2; simpl in S; try discriminate;
      try (injection S as <-; intros E; exfalso; revert E;
           now apply parse_tokens_other).
    injection S as <-. destruct toks; [reflexivity|discriminate].
Qed.

(** ** The lexer *)

Lemma is_bracket_lit (lit : option bool) : is_bracket (lit_token lit) = false.
Proof. destruct lit as [[|]|]; reflexivity. Qed.

Lemma lex_default_brackets (c : ascii) (toks : list token) (st' : lstate) :
  lex_default c = Some (toks, st') -> forallb is_bracket toks = true ->
  st' = LDefault -> Ascii.eqb c "{" = false.
Proof.
  unfold lex_default. intros E B D.
  destruct (Ascii.eqb c "{") eqn:C; [|reflexivity].
  destruct (is_json_ws c) eqn:W.
  - apply Ascii.eqb_eq in C. subst c. discriminate W.
  - injection E as <- <-. discriminate B.
Qed.

(** When the lexer ends in its default state having written brackets
    only, it started in the default state and read no brace. *)
Lemma lex_step_brackets (st st' : lstate) (c : ascii) (toks : list token) :
  lex_step st c = Some (toks, st') -> forallb is_bracket toks = true ->
  st' = LDefault -> st = LDefault /\ Ascii.eqb c "{" = false.
Proof.
  intros E B D. subst st'. destruct st as [|acc|acc|acc hex|acc ns|rest lit];
    simpl in E.
  - split; [reflexivity|]. eapply lex_default_brackets; eauto.
  - exfalso. destruct (Ascii.eqb c dquote).
    + injection E as <-. discriminate B.
    + destruct (Ascii.eqb c "\"); [discriminate|].
      destruct (code c <? 32)%N; discriminate.
  - exfalso. destruct (Ascii.eqb c "u"); [discriminate|].
    destruct (escape_char c); discriminate.
  - exfalso. destruct (hex_value c); [|discriminate].
    destruct (List.length (hex ++ [n]) =? 4)%nat; discriminate.
  - exfalso. destruct (num_next ns c); [discriminate|].
    destruct (num_final ns); [|discriminate].
    destruct (lex_default c) as [[toks' st']|]; [|discriminate].
    injection E as <- _. discriminate B.
  - exfalso. destruct rest as [|d r]; [discriminate|].
    destruct (Ascii.eqb c d); [|discriminate].
    destruct (r =? ""); [|discriminate].
    injection E as <-. simpl in B. now rewrite is_bracket_lit in B.
Qed.

Lemma lex_brackets (s : string) (st : lstate) (toks : list token) :
  lex st s = Some toks -> forallb is_bracket toks = true ->
  st = LDefault /\ occurs "{" s = false.
Proof.
  revert st toks. induction s as [|c r IH]; intros st toks E B.
  - destruct st as [|acc|acc|acc hex|acc ns|rest lit]; simpl in E;
      try discriminate.
    + now split.
    + destruct (num_final ns); [|discriminate]. injection E as <-.
      discriminate B.
  - cbn [lex] in E.
    destruct (lex_step st c) as [[emitted st']|] eqn:S; [|discriminate].
    destruct (lex st' r) as [rest|] eqn:L; [|discriminate].
    injection E as <-. rewrite forallb_app in B.
    apply andb_true_iff in B as [B1 B2].
    destruct (IH st' rest L B2) as [D O].
    destruct (lex_step_brackets _ _ _ _ S B1 D) as [D' C].
    split; [exact D'|]. cbn [occurs]. rewrite Ascii.eqb_sym, C. exact O.
Qed.

(** A text that parses to the empty array holds no brace. *)
Lemma empty_array_no_brace (s : string) :
  parse_text s = Some (JArr []) -> occurs "{" s = false.
Proof.
  unfold parse_text. destruct (lex LDefault s) as [toks|] eqn:L; [|discriminate].
  intros E. apply parse_tokens_empty_array in E. subst toks.
  now apply (lex_brackets s LDefault _ L).
Qed.

(** ** Brace spans *)

Lemma brace_spans_none (s : string) :
  occurs "{" s = false -> brace_spans s = [].
Proof.
  unfold brace_spans. induction s as [|c r IH]; [reflexivity|].
  cbn [occurs brace_spans_from]. intros H.
  apply orb_false_iff in H as [H1 H2].
  rewrite Ascii.eqb_sym, H1. now apply IH.
Qed.

Lemma snoc_open (acc : string) (c : ascii) :
  (exists t, acc = String "{" t) -> exists t, snoc acc c = String "{" t.
Proof. intros [t ->]. now exists (snoc t c). Qed.

Lemma brace_spans_from_open (s : string) (cur : option string) (m : string) :
  (forall acc, cur = Some acc -> exists t, acc = String "{" t) ->
  In m (brace_spans_from cur s) -> exists t, m = String "{" t.
Proof.
  revert cur. induction s as [|c r IH]; intros cur Hc H; [contradiction|].
  cbn [brace_spans_from] in H. destruct cur as [acc|].
  - destruct (Ascii.eqb c "}").
    + destruct H as [<-|H].
      * apply snoc_open. now apply Hc.
      * apply (IH None); [discriminate|exact H].
    + apply (IH (Some (snoc acc c))); [|exact H].
      intros a [= <-]. apply snoc_open. now apply Hc.
  - destruct (Ascii.eqb c "{").
    + apply (IH (Some "{")); [|exact H]. intros a [= <-]. now exists "".
    + apply (IH None); [discriminate|exact H].
Qed.

(** Every match of the brace pattern opens with a brace. *)
Lemma brace_spans_open (s m : string) :
  In m (brace_spans s) -> exists t, m = String "{" t.
Proof. apply brace_spans_from_open. discriminate. Qed.

(** ** Mapping with an index *)

Lemma map_from_nth {A B} (f : A -> nat -> result B) (l : list A) :
  forall idx ys, map_from f idx l = Ok ys ->
  List.length ys = List.length l /\
  forall i y, nth_error ys i = Some y ->
              exists x, nth_error l i = Some x /\ f x (idx + i) = Ok y.
Proof.
  induction l as [|x r IH]; intros idx ys E; simpl in E.
  - injection E as <-. split; [reflexivity|]. intros [|i] y H; discriminate.
  - destruct (f x idx) as [y0|] eqn:F; [|discriminate]. simpl in E.
    destruct (map_from f (S idx) r) as [ys0|] eqn:M; [|discriminate].
    simpl in E. injection E as <-. destruct (IH _ _ M) as [L N].
    split; [simpl; now rewrite L|]. intros [|i] y H; simpl in H.
    + injection H as <-. exists x. now rewrite Nat.add_0_r.
    + destruct (N i y H) as [x' [Hx Hf]]. exists x'. split; [exact Hx|].
      now rewrite Nat.add_succ_r.
Qed.

Lemma bind_ok {A B} (m : result A) (k : A -> result B) (b : B) :
  (x <- m ;; k x) = Ok b -> exists a, m = Ok a /\ k a = Ok b.
Proof. destruct m as [a|]; [|discriminate]. intros H. now exists a. Qed.

Lemma normalize_item_id (item : value) (idx : nat) (r : Clause) :
  normalize_item item idx = Ok r -> id r = JNum (decimal idx).
Proof.
  unfold normalize_item. intros H.
  repeat (apply bind_ok in H as [? [_ H]]). now injection H as <-.
Qed.

Lemma direct_item_id (it : value) (idx : nat) (r : Clause) :
  direct_item it idx = Ok r -> (get it "id" ?? Ok JNull) = Ok (id r).
Proof.
  unfold direct_item. intros H.
  apply bind_ok in H as [i [Hi H]]. rewrite Hi.
  repeat (apply bind_ok in H as [? [_ H]]). now injection H as <-.
Qed.

Lemma normalize_indexed (arr : list value) (recs : list Clause) :
  normalize arr = Ok recs -> indexed recs.
Proof.
  intros H i r Hr. destruct (map_from_nth _ _ _ _ H) as [_ N].
  destruct (N i r Hr) as [x [_ Hx]]. now apply normalize_item_id in Hx.
Qed.

Lemma parse_array_indexed (s : string) (recs : list Clause) :
  try_catch (parse_array s) = Some recs -> indexed recs.
Proof.
  unfold parse_array. destruct (JSON_parse s) as [v|]; [|discriminate].
  simpl. destruct v; try discriminate.
  destruct (normalize items) as [r|] eqn:N; [|discriminate]. simpl.
  intros [= <-]. now apply (normalize_indexed items).
Qed.

Lemma bracket_parse_indexed (s : string) (recs : list Clause) :
  bracket_parse s = Some recs -> indexed recs.
Proof.
  unfold bracket_parse. destruct (_ && _)%bool; [|discriminate].
  apply parse_array_indexed.
Qed.

Lemma object_scan_indexed (s : string) (recs : list Clause) :
  object_scan s = Some recs -> indexed recs.
Proof.
  unfold object_scan. destruct (0 <? _)%nat; [|discriminate].
  destruct (normalize _) as [r|] eqn:N; [|discriminate]. simpl.
  intros [= <-]. now apply normalize_indexed in N.
Qed.

Lemma or_else_some {A} (a b : option A) (x : A) :
  (a ||| b) = Some x -> a = Some x \/ (a = None /\ b = Some x).
Proof. destruct a; simpl; auto. Qed.

Lemma candidate_tiers_indexed (candidate : string) (recs : list Clause) :
  candidate_tiers candidate = Some recs -> indexed recs.
Proof.
  unfold candidate_tiers, strict_parse, unquote_parse, unescape_parse.
  destruct (candidate =? ""); [discriminate|]. intros H.
  repeat (apply or_else_some in H as [H|[_ H]]);
    eauto using parse_array_indexed, bracket_parse_indexed, object_scan_indexed.
Qed.

Lemma normalized_tiers_indexed (rawData : value) (recs : list Clause) :
  normalized_tiers rawData = Some recs -> indexed recs.
Proof.
  unfold normalized_tiers, payload_scan. intros H.
  apply or_else_some in H as [H|[_ H]].
  - destruct (candidate_of rawData); [|discriminate].
    now apply candidate_tiers_indexed in H.
  - destruct (JSON_stringify rawData); [|discriminate].
    now apply bracket_parse_indexed in H.
Qed.

(** ** Record identifiers (C2) *)

(** C2, counterexample: the payload scan fails on this payload (the text
    between its first "[" and its last "]" is no JSON value), the last
    resort maps its [clauses], and the record keeps the source [id] 5
    instead of its position 0. *)
Lemma direct_array_keeps_source_id :
  exists r,
    parseNestedClauses
      (JObj [("clauses", JArr [JObj [("id", JNum "5")]]);
             ("x", JArr [JNum "1"])]) = Ok [r]
    /\ id r <> JNum (decimal 0).
Proof. eexists. split; [vm_compute; reflexivity|]. simpl. discriminate. Qed.

(** C2, as corrected: the records of every batch that goes through
    [normalize] (the tiers on the candidate string and the scan of the whole
    payload) carry their position as [id], whatever the source objects
    hold; the records of the last resort on [rawData.clauses] carry the
    source object's [id], or [null] when it has none. *)
Theorem ids_of_parsed_clauses (rawData : value) (recs : list Clause) :
  parseNestedClauses rawData = Ok recs ->
  match normalized_tiers rawData with
  | Some _ => forall i r, nth_error recs i = Some r -> id r = JNum (decimal i)
  | None =>
      forall i r, nth_error recs i = Some r ->
      exists items it,
        opt_get rawData "clauses" = JArr items /\
        nth_error items i = Some it /\
        (get it "id" ?? Ok JNull) = Ok (id r)
  end.
Proof.
  unfold parseNestedClauses. destruct (negb (truthy rawData)).
  - intros [= <-]. destruct (normalized_tiers rawData);
      intros [|i] r H; discriminate.
  - destruct (normalized_tiers rawData) as [r0|] eqn:T.
    + intros [= <-]. now apply (normalized_tiers_indexed rawData).
    + unfold direct_array. intros H i r Hr.
      destruct (opt_get rawData "clauses") as [| | | | |items|] eqn:C;
        try (injection H as <-; destruct i; discriminate).
      destruct (map_from_nth _ _ _ _ H) as [_ N].
      destruct (N i r Hr) as [it [Hit Hd]].
      exists items, it. repeat split; trivial. now apply direct_item_id in Hd.
Qed.

Lemma ids_of_parsed_clauses_witness :
  let rawData :=
    JObj [("clauses",
           JArr [JObj [("text", JStr (q "[{'id':7,'text':'a'},{'id':7,'text':'b'}]"))]])] in
  exists recs,
    parseNestedClauses rawData = Ok recs /\
    forall i r, nth_error recs i = Some r -> id r = JNum (decimal i).
Proof.
  intros rawData. eexists. split; [vm_compute; reflexivity|].
  exact (ids_of_parsed_clauses rawData _ eq_refl).
Defined.

(** ** Exceptions (C1) *)

(** C1: on the payload [{clauses: [null]}] the scan of the whole payload
    parses [[null]], [normalize] throws on the [null] element and the
    [catch] resumes; the last resort then reads [it.id] on [null] outside
    any [try], and the [TypeError] leaves [parseNestedClauses]. *)
Theorem null_clause_throws :
  payload_scan (JObj [("clauses", JArr [JNull])]) = None /\
  parseNestedClauses (JObj [("clauses", JArr [JNull])]) = Throw TypeError /\
  extraction (JObj [("clauses", JArr [JNull])]) = Throw TypeError.
Proof. repeat split; vm_compute; reflexivity. Qed.

(** ** The method tag (C3, C7) *)

(** C3: two objects without an enclosing array, followed by a malformed
    one.  The tiers on arrays give nothing, the scan for objects inside
    [parseNestedClauses] returns the two records, and the method is
    reported as [array]. *)
Theorem object_scan_reported_as_array :
  let block := q "{'clause_text':'a'} {'clause_text':'b','risk':'HIGH'} {bad}" in
  let rawData := JObj [("clauses", JArr [JObj [("text", JStr block)]])] in
  strict_parse (clean block) = None /\
  unquote_parse (clean block) = None /\
  unescape_parse (clean block) = None /\
  bracket_parse (clean block) = None /\
  object_scan (clean block)
  = Some [mkClause (JNum "0") (JStr "a") (JStr "Unspecified") "moderate" JNull;
          mkClause (JNum "1") (JStr "b") (JStr "Unspecified") "high" JNull] /\
  extraction rawData
  = Ok (mkResult
          [mkClause (JNum "0") (JStr "a") (JStr "Unspecified") "moderate" JNull;
           mkClause (JNum "1") (JStr "b") (JStr "Unspecified") "high" JNull]
          "array" (Some block)).
Proof. repeat split; vm_compute; reflexivity. Qed.

(** C7: the candidate string comes from [body]; it parses to the empty
    array, so there are no records; the method is computed from [text]
    alone and is reported as [none]. *)
Theorem body_candidate_reported_as_none :
  let rawData := JObj [("clauses", JArr [JObj [("body", JStr "[]")]])] in
  candidate_of rawData = Some "[]" /\
  extraction rawData = Ok (mkResult [] "none" None).
Proof. split; vm_compute; reflexivity. Qed.

(** ** Malformed members (C5) *)

Lemma collect_objects_from (matches : list string) (objs : list value) :
  fold_left (fun objs m =>
               match JSON_parse m with
               | Ok p => (objs ++ [p])%list
               | Throw _ => objs
               end) matches objs
  = (objs ++ collect_objects matches)%list.
Proof.
  unfold collect_objects. revert objs.
  induction matches as [|m r IH]; intros objs; simpl.
  - now rewrite app_nil_r.
  - rewrite IH, (IH (match JSON_parse m with Ok p => [p] | Throw _ => [] end)).
    destruct (JSON_parse m); simpl; [now rewrite <- app_assoc|reflexivity].
Qed.

Lemma collect_objects_cons (m : string) (r : list string) :
  collect_objects (m :: r)
  = (match JSON_parse m with Ok p => [p] | Throw _ => [] end
     ++ collect_objects r)%list.
Proof.
  unfold collect_objects at 1. simpl. rewrite collect_objects_from.
  destruct (JSON_parse m); reflexivity.
Qed.





(** ** The empty array (C10) *)

Lemma first_clause_field_truthy (rawData : value) (k s : string) :
  first_clause_field rawData k = JStr s -> truthy rawData = true.
Proof. destruct rawData; try reflexivity; intros H; vm_compute in H; discriminate. Qed.

Lemma parse_text_nonempty (s : string) (v : value) :
  parse_text s = Some v -> (s =? "") = false.
Proof. destruct s; [discriminate|reflexivity]. Qed.

Lemma clean_nonempty (s : string) : (clean s =? "") = false -> (s =? "") = false.
Proof. destruct s; [discriminate|reflexivity]. Qed.

(** C10: the candidate string comes from [body] and, its fence removed,
    parses to the empty array.  The strict tier returns the empty list at
    once, although the scan of the whole payload would give a record; the
    method, computed from [text] alone, is [none] and not [raw-text]. *)
Theorem empty_array_in_body_is_none :
  let block := "```json [] ```" in
  let rawData := JObj [("clauses", JArr [JObj [("body", JStr block)]])] in
  candidate_of rawData = Some block /\
  clean block = "[]" /\
  strict_parse (clean block) = Some [] /\
  payload_scan rawData
  = Some [mkClause (JNum "0") (JStr "") (JStr "Unspecified") "moderate" JNull] /\
  parseNestedClauses rawData = Ok [] /\
  extraction rawData = Ok (mkResult [] "none" None).
Proof. repeat split; vm_compute; reflexivity. Qed.

(** X23: when the [text] field of the first element of [clauses] is a
    string whose cleaned form parses to the empty array, the strict tier
    returns the empty list, so [parseNestedClauses] returns no record
    whatever the later tiers would give, and the method is [raw-text]. *)
Theorem empty_array_is_raw_text (rawData : value) (s : string) :
  first_clause_field rawData "text" = JStr s ->
  parse_text (clean s) = Some (JArr []) ->
  strict_parse (clean s) = Some [] /\
  parseNestedClauses rawData = Ok [] /\
  extraction rawData = Ok (mkResult [] "raw-text" (Some (clean s))).
Proof.
  intros Ht Hp.
  assert (Hc : (clean s =? "") = false) by exact (parse_text_nonempty _ _ Hp).
  assert (Hs : (s =? "") = false) by exact (clean_nonempty _ Hc).
  assert (S1 : strict_parse (clean s) = Some []).
  { unfold strict_parse, parse_array, JSON_parse. now rewrite Hp. }
  assert (P : parseNestedClauses rawData = Ok []).
  { unfold parseNestedClauses, normalized_tiers, candidate_of.
    rewrite (first_clause_field_truthy _ _ _ Ht), Ht. cbn [negb coalesce nullish].
    unfold candidate_tiers. rewrite Hs, S1. reflexivity. }
  repeat split; trivial.
  unfold extraction. rewrite P, Ht. cbn [bind coalesce nullish truthy].
  rewrite Hs. cbn [negb bind]. rewrite Hc.
  unfold extractObjectsFromText. rewrite Hc.
  rewrite (brace_spans_none _ (empty_array_no_brace _ Hp)). reflexivity.
Qed.

Lemma empty_array_is_raw_text_witness :
  let rawData :=
    JObj [("clauses", JArr [JObj [("text", JStr "```json [ ] ```")]])] in
  payload_scan rawData <> Some [] /\
  strict_parse (clean "```json [ ] ```") = Some [] /\
  parseNestedClauses rawData = Ok [] /\
  extraction rawData = Ok (mkResult [] "raw-text" (Some "[ ]")).
Proof.
  intros rawData. split; [vm_compute; discriminate|].
  apply (empty_array_is_raw_text rawData "```json [ ] ```"); reflexivity.
Defined.

(** * Further properties of the component *)

(** ** What every record satisfies *)

Lemma map_from_forall {A B} (f : A -> nat -> result B) (P : B -> Prop)
  (l : list A) :
  (forall x i y, f x i = Ok y -> P y) ->
  forall idx ys, map_from f idx l = Ok ys -> Forall P ys.
Proof.
  intros Hf idx ys E. apply Forall_forall. intros y Hy.
  apply In_nth_error in Hy as [i Hi].
  destruct (map_from_nth f l idx ys E) as [_ N].
  destruct (N i y Hi) as [x [_ Hx]]. exact (Hf _ _ _ Hx).
Qed.

Lemma parse_array_forall (P : Clause -> Prop) (s : string) (recs : list Clause) :
  (forall x i r, normalize_item x i = Ok r -> P r) ->
  try_catch (parse_array s) = Some recs -> Forall P recs.
Proof.
  intros Hn. unfold parse_array.
  destruct (JSON_parse s) as [v|]; [|discriminate].
  simpl. destruct v; try discriminate.
  destruct (normalize items) as [r|] eqn:N; [|discriminate]. simpl.
  intros [= <-]. exact (map_from_forall _ P _ Hn _ _ N).
Qed.

Lemma normalized_tiers_forall (P : Clause -> Prop) (rawData : value)
  (recs : list Clause) :
  (forall x i r, normalize_item x i = Ok r -> P r) ->
  normalized_tiers rawData = Some recs -> Forall P recs.
Proof.
  intros Hn H.
  assert (B : forall s r, bracket_parse s = Some r -> Forall P r).
  { intros s r. unfold bracket_parse. destruct (_ && _)%bool; [|discriminate].
    now apply parse_array_forall. }
  unfold normalized_tiers, payload_scan in H.
  apply or_else_some in H as [H|[_ H]].
  - destruct (candidate_of rawData) as [c|]; [|discriminate].
    unfold candidate_tiers, strict_parse, unquote_parse, unescape_parse in H.
    destruct (c =? ""); [discriminate|].
    repeat (apply or_else_some in H as [H|[_ H]]);
      eauto using parse_array_forall.
    unfold object_scan in H. destruct (0 <? _)%nat; [|discriminate].
    destruct (normalize _) as [r|] eqn:N; [|discriminate].
    injection H as <-. exact (map_from_forall _ P _ Hn _ _ N).
  - destruct (JSON_stringify rawData); [|discriminate]. eauto.
Qed.

(** Whatever holds of the records the two arrow functions build holds of
    every record [parseNestedClauses] returns. *)
Lemma parseNestedClauses_forall (P : Clause -> Prop) (rawData : value)
  (recs : list Clause) :
  (forall x i r, normalize_item x i = Ok r -> P r) ->
  (forall x i r, direct_item x i = Ok r -> P r) ->
  parseNestedClauses rawData = Ok recs -> Forall P recs.
Proof.
  intros Hn Hd. unfold parseNestedClauses.
  destruct (negb (truthy rawData)); [intros [= <-]; constructor|].
  destruct (normalized_tiers rawData) as [r|] eqn:T.
  - intros [= <-]. exact (normalized_tiers_forall P _ _ Hn T).
  - unfold direct_array.
    destruct (opt_get rawData "clauses");
      try (intros [= <-]; constructor).
    apply (map_from_forall _ P _ Hd).
Qed.

Lemma lower_char_idem (c : ascii) : lower_char (lower_char c) = lower_char c.
Proof. destruct c as [[|] [|] [|] [|] [|] [|] [|] [|]]; reflexivity. Qed.

Lemma toLowerCase_idem (s : string) : toLowerCase (toLowerCase s) = toLowerCase s.
Proof.
  induction s as [|c r IH]; simpl; [reflexivity|].
  now rewrite lower_char_idem, IH.
Qed.

Lemma coalesce_r_default (a : result value) (d v : value) :
  nullish d = false -> (a ?? Ok d) = Ok v -> nullish v = false.
Proof.
  unfold coalesce_r. destruct a as [x|]; [|discriminate]. simpl.
  destruct (nullish x) eqn:N; intros Hd [= <-]; assumption.
Qed.

Lemma coalesce_r_step (a b : result value) (v : value) :
  (forall w, b = Ok w -> nullish w = false) ->
  (a ?? b) = Ok v -> nullish v = false.
Proof.
  unfold coalesce_r. destruct a as [x|]; [|discriminate]. simpl.
  destruct (nullish x) eqn:N; intros Hb H; [now apply Hb|].
  now injection H as <-.
Qed.

Lemma coalesce_r_null (a : result value) (v : value) :
  (a ?? Ok JNull) = Ok v -> v <> JUndefined.
Proof.
  unfold coalesce_r. destruct a as [x|]; [|discriminate]. simpl.
  destruct x; simpl; intros [= <-]; discriminate.
Qed.

Lemma coalesce_r_step_null (a b : result value) (v : value) :
  (forall w, b = Ok w -> w <> JUndefined) ->
  (a ?? b) = Ok v -> v <> JUndefined.
Proof.
  unfold coalesce_r. destruct a as [x|]; [|discriminate]. simpl.
  destruct x; simpl; intros Hb H; try (now apply Hb);
    injection H as <-; discriminate.
Qed.

Lemma normalize_item_canonical (x : value) (i : nat) (r : Clause) :
  normalize_item x i = Ok r -> canonical r.
Proof.
  unfold normalize_item. intros H.
  apply bind_ok in H as [t [Ht H]]. apply bind_ok in H as [ty [Hty H]].
  apply bind_ok in H as [rk [_ H]]. apply bind_ok in H as [rs [_ H]].
  apply bind_ok in H as [im [Him H]]. injection H as <-.
  repeat split; simpl.
  - revert Ht. apply coalesce_r_step. intros w. now apply coalesce_r_default.
  - revert Hty. apply coalesce_r_step. intros w. apply coalesce_r_step.
    intros w'. now apply coalesce_r_default.
  - apply toLowerCase_idem.
  - revert Him. apply coalesce_r_step_null. intros w. apply coalesce_r_null.
Qed.

Lemma direct_item_canonical (x : value) (i : nat) (r : Clause) :
  direct_item x i = Ok r -> canonical r.
Proof.
  unfold direct_item. intros H.
  apply bind_ok in H as [d [_ H]].
  apply bind_ok in H as [t [Ht H]]. apply bind_ok in H as [ty [Hty H]].
  apply bind_ok in H as [rk [_ H]]. apply bind_ok in H as [rs [_ H]].
  apply bind_ok in H as [im [Him H]]. injection H as <-.
  repeat split; simpl.
  - revert Ht. apply coalesce_r_step. intros w. now apply coalesce_r_default.
  - revert Hty. apply coalesce_r_step. intros w. apply coalesce_r_step.
    intros w'. now apply coalesce_r_default.
  - apply toLowerCase_idem.
  - revert Him. apply coalesce_r_null.
Qed.

(** X1: every record that [parseNestedClauses] returns, by whichever tier,
    has a [text] and a [type] that are neither [null] nor [undefined], a
    [risk] in lower case, and [implications] that are never [undefined]. *)
Theorem parsed_clauses_canonical (rawData : value) (recs : list Clause) :
  parseNestedClauses rawData = Ok recs -> Forall canonical recs.
Proof.
  apply parseNestedClauses_forall.
  - exact normalize_item_canonical.
  - exact direct_item_canonical.
Qed.

Lemma parsed_clauses_canonical_witness :
  Forall canonical
    [mkClause (JNum "0") (JStr "Pay") (JStr "Unspecified") "high" JNull].
Proof.
  apply (parsed_clauses_canonical
           (JObj [("clauses",
                   JArr [JObj [("text", JStr (q "[{'text':'Pay','risk':'HIGH'}]"))]])])).
  vm_compute. reflexivity.
Defined.

(** ** Exceptions *)

Lemma get_error (v : value) (k : string) (e : error) :
  get v k = Throw e -> e = TypeError.
Proof. destruct v; simpl; intros H; now inversion H. Qed.

Lemma bind_throw {A B} (m : result A) (k : A -> result B) (e : error) :
  (x <- m ;; k x) = Throw e ->
  m = Throw e \/ exists a, m = Ok a /\ k a = Throw e.
Proof.
  destruct m as [a|e']; simpl; intros H;
    [right; now exists a | left; congruence].
Qed.

(** Induction on a value through the elements of its arrays and the
    values of its properties. *)
Lemma value_induction (P : value -> Prop) :
  P JUndefined -> P JNull -> (forall b, P (JBool b)) ->
  (forall l, P (JNum l)) -> (forall s, P (JStr s)) ->
  (forall items, Forall P items -> P (JArr items)) ->
  (forall props, Forall (fun kv => P (snd kv)) props -> P (JObj props)) ->
  forall v, P v.
Proof.
  intros Hu Hn Hb Hl Hs Ha Ho.
  fix F 1. intros [| |b|l|s|items|props];
    [exact Hu | exact Hn | apply Hb | apply Hl | apply Hs | | ].
  - apply Ha. induction items as [|x r IH]; constructor; [apply F | exact IH].
  - apply Ho. induction props as [|[k x] r IH]; constructor; [apply F | exact IH].
Qed.

Lemma ToString_array (items : list value) :
  ToString (JArr items) = (parts <- join_values items ;; Ok (join "," parts)).
Proof. reflexivity. Qed.

Lemma join_values_error (items : list value) (e : error) :
  Forall (fun x => forall e', ToString x = Throw e' -> e' = TypeError) items ->
  join_values items = Throw e -> e = TypeError.
Proof.
  induction 1 as [|x r Hx _ IH]; simpl; [discriminate|]. intros H.
  apply bind_throw in H as [H|[t [_ H]]].
  - destruct (nullish x); [discriminate|]. now apply Hx.
  - apply bind_throw in H as [H|[ts [_ H]]]; [now apply IH|discriminate].
Qed.

Lemma ToString_error (v : value) (e : error) :
  ToString v = Throw e -> e = TypeError.
Proof.
  revert e. induction v as [| | | | |items IH|props _] using value_induction;
    intros e; try discriminate.
  - rewrite ToString_array. intros H.
    apply bind_throw in H as [H|[ts [_ H]]]; [|discriminate].
    exact (join_values_error items e IH H).
  - simpl. destruct (lookup "toString" props); [|discriminate].
    now intros [= <-].
Qed.

Lemma call_toString_error (v : value) (e : error) :
  call_toString v = Throw e -> e = TypeError.
Proof.
  unfold call_toString. destruct (nullish v); [now intros [= <-]|].
  apply ToString_error.
Qed.

Lemma coalesce_r_error (a b : result value) (e : error) :
  (forall e', a = Throw e' -> e' = TypeError) ->
  (forall e', b = Throw e' -> e' = TypeError) ->
  (a ?? b) = Throw e -> e = TypeError.
Proof.
  unfold coalesce_r. intros Ha Hb H.
  apply bind_throw in H as [H|[x [_ H]]]; [now apply Ha|].
  destruct (nullish x); [now apply Hb|discriminate].
Qed.

Ltac type_error :=
  repeat first
    [ apply coalesce_r_error; intros ?
    | apply get_error
    | apply call_toString_error
    | discriminate ].

Lemma normalize_item_error (x : value) (i : nat) (e : error) :
  normalize_item x i = Throw e -> e = TypeError.
Proof.
  unfold normalize_item. intros H.
  repeat (apply bind_throw in H as [H|[? [_ H]]];
          [ revert H; solve [type_error] | ]).
  discriminate.
Qed.

Lemma direct_item_error (x : value) (i : nat) (e : error) :
  direct_item x i = Throw e -> e = TypeError.
Proof.
  unfold direct_item. intros H.
  repeat (apply bind_throw in H as [H|[? [_ H]]];
          [ revert H; solve [type_error] | ]).
  discriminate.
Qed.

Lemma map_from_error {A B} (f : A -> nat -> result B) (l : list A) :
  (forall x i e, f x i = Throw e -> e = TypeError) ->
  forall idx e, map_from f idx l = Throw e -> e = TypeError.
Proof.
  intros Hf. induction l as [|x r IH]; intros idx e; simpl; [discriminate|].
  intros H. apply bind_throw in H as [H|[y [_ H]]]; [now apply Hf in H|].
  apply bind_throw in H as [H|[ys [_ H]]]; [now apply IH in H|discriminate].
Qed.

Lemma nullish_get (x : value) (k : string) :
  nullish x = true -> get x k = Throw TypeError.
Proof. destruct x; try discriminate; reflexivity. Qed.

Lemma normalize_item_nullish (x : value) (i : nat) :
  nullish x = true -> normalize_item x i = Throw TypeError.
Proof.
  intros H. unfold normalize_item, coalesce_r. now rewrite !(nullish_get x _ H).
Qed.

(** X2: a batch that holds [null] or [undefined] anywhere makes
    [normalize] throw a [TypeError], whatever its other members are. *)
Theorem normalize_throws_on_null (arr : list value) :
  existsb nullish arr = true -> normalize arr = Throw TypeError.
Proof.
  unfold normalize, array_map. generalize 0.
  induction arr as [|x r IH]; intros idx; simpl; [discriminate|].
  destruct (nullish x) eqn:N; simpl.
  - intros _. now rewrite normalize_item_nullish.
  - intros H. destruct (normalize_item x idx) as [y|e] eqn:E; simpl.
    + now rewrite (IH _ H).
    + now rewrite (normalize_item_error _ _ _ E).
Qed.

Lemma normalize_throws_on_null_witness :
  normalize [JObj [("text", JStr "a")]; JNull; JObj [("text", JStr "b")]]
  = Throw TypeError.
Proof. apply normalize_throws_on_null. reflexivity. Defined.

(** X3: [parseNestedClauses] throws only out of its last resort: when it
    throws, the exception is a [TypeError], no earlier tier returned, and
    [rawData.clauses] is an array whose mapping threw. *)
Theorem throws_only_in_last_resort (rawData : value) (e : error) :
  parseNestedClauses rawData = Throw e ->
  e = TypeError /\ normalized_tiers rawData = None /\
  exists items,
    opt_get rawData "clauses" = JArr items /\
    array_map direct_item items = Throw e.
Proof.
  unfold parseNestedClauses. destruct (negb (truthy rawData)); [discriminate|].
  destruct (normalized_tiers rawData); [discriminate|].
  unfold direct_array.
  destruct (opt_get rawData "clauses"); try discriminate.
  intros H. split; [|split; [reflexivity | now exists items]].
  exact (map_from_error _ _ direct_item_error _ _ H).
Qed.

Lemma throws_only_in_last_resort_witness :
  TypeError = TypeError /\
  normalized_tiers (JObj [("clauses", JArr [JNull])]) = None /\
  exists items,
    opt_get (JObj [("clauses", JArr [JNull])]) "clauses" = JArr items /\
    array_map direct_item items = Throw TypeError.
Proof.
  apply (throws_only_in_last_resort (JObj [("clauses", JArr [JNull])])).
  reflexivity.
Defined.

(** ** Empty and falsy payloads *)

Lemma falsy_first_field (rawData : value) (k : string) :
  truthy rawData = false -> first_clause_field rawData k = JUndefined.
Proof.
  destruct rawData as [| |b|l|s|items|props]; try reflexivity; discriminate.
Qed.

(** X4: on a falsy payload ([null] before the first response, [undefined],
    [false], zero, the empty string) nothing is extracted, nothing is
    thrown, and the method is [none]. *)
Theorem falsy_payload_extracts_nothing (rawData : value) :
  truthy rawData = false ->
  parseNestedClauses rawData = Ok [] /\
  extraction rawData = Ok (mkResult [] "none" None).
Proof.
  intros H.
  assert (P : parseNestedClauses rawData = Ok []).
  { unfold parseNestedClauses. now rewrite H. }
  split; [exact P|]. unfold extraction.
  now rewrite P, (falsy_first_field _ _ H).
Qed.

Lemma falsy_payload_extracts_nothing_witness :
  parseNestedClauses JNull = Ok [] /\
  extraction JNull = Ok (mkResult [] "none" None).
Proof. apply falsy_payload_extracts_nothing. reflexivity. Defined.

(** ** The method tag and the records *)

Lemma length_pos_not_nil {A} (l : list A) :
  (0 <? List.length l)%nat = true -> l <> [].
Proof. destruct l; [discriminate|discriminate]. Qed.

Lemma length_zero_nil {A} (l : list A) :
  (0 <? List.length l)%nat = false -> l = [].
Proof. destruct l; [reflexivity|discriminate]. Qed.

(** X5: the method tag tells whether there are records: [array] and
    [objects] come with a non-empty list, [raw-text] and [none] with an
    empty one; [array] is reported exactly when [parseNestedClauses]
    itself returned records, and [raw-text] only with a non-empty cleaned
    block. *)
Theorem method_tells_records (rawData : value) (res : ExtractionResult) :
  extraction rawData = Ok res ->
  exists parsedClauses,
    parseNestedClauses rawData = Ok parsedClauses /\
    ((method res = "array" /\ parsedClauses <> [] /\
      records res = parsedClauses) \/
     (method res = "objects" /\ parsedClauses = [] /\ records res <> []) \/
     (method res = "raw-text" /\ parsedClauses = [] /\ records res = [] /\
      exists c, cleanedBlock res = Some c /\ c <> "") \/
     (method res = "none" /\ parsedClauses = [] /\ records res = [])).
Proof.
  unfold extraction. intros H.
  apply bind_ok in H as [parsed [P H]]. exists parsed. split; [exact P|].
  apply bind_ok in H as [cleaned [_ H]].
  apply bind_ok in H as [objs [_ H]]. injection H as <-. simpl.
  destruct (0 <? List.length parsed)%nat eqn:L1.
  - left. repeat split. now apply length_pos_not_nil.
  - right. apply length_zero_nil in L1.
    destruct (0 <? List.length objs)%nat eqn:L2.
    + left. repeat split; trivial. now apply length_pos_not_nil.
    + right. apply length_zero_nil in L2.
      destruct cleaned as [c|].
      * destruct (c =? "") eqn:C; simpl.
        -- right. now repeat split.
        -- left. repeat split; trivial. exists c. split; [reflexivity|].
           now apply String.eqb_neq.
      * right. now repeat split.
Qed.

Lemma method_tells_records_witness :
  exists parsedClauses,
    parseNestedClauses (text_payload (q "{'a':1} []")) = Ok parsedClauses /\
    (("objects" = "array" /\ parsedClauses <> [] /\
      [default_clause 0] = parsedClauses) \/
     ("objects" = "objects" /\ parsedClauses = [] /\ [default_clause 0] <> []) \/
     ("objects" = "raw-text" /\ parsedClauses = [] /\ [default_clause 0] = [] /\
      exists c, Some (q "{'a':1} []") = Some c /\ c <> "") \/
     ("objects" = "none" /\ parsedClauses = [] /\ [default_clause 0] = [])).
Proof.
  apply (method_tells_records (text_payload (q "{'a':1} []"))
           (mkResult [default_clause 0] "objects" (Some (q "{'a':1} []")))).
  vm_compute. reflexivity.
Defined.

(** ** Risk counts *)

(** X6: the three badge counts of the clause list are counts of disjoint
    sets of records: their sum never exceeds the number of records, and
    equals it when every risk is one of the three known levels. *)
Theorem risk_counts_bounded (parsed : list Clause) :
  (riskCount "safe" parsed + riskCount "moderate" parsed
   + riskCount "high" parsed <= List.length parsed)%nat /\
  (Forall (fun c => risk c = "safe" \/ risk c = "moderate" \/ risk c = "high")
          parsed ->
   (riskCount "safe" parsed + riskCount "moderate" parsed
    + riskCount "high" parsed = List.length parsed)%nat).
Proof.
  unfold riskCount. induction parsed as [|c r [IH1 IH2]]; simpl.
  - split; [lia|reflexivity].
  - split.
    + destruct (String.eqb_spec (risk c) "safe") as [E1|E1];
        destruct (String.eqb_spec (risk c) "moderate") as [E2|E2];
        destruct (String.eqb_spec (risk c) "high") as [E3|E3];
        simpl; try lia; congruence.
    + intros H. inversion H as [|? ? Hc Hr]; subst. specialize (IH2 Hr).
      destruct Hc as [-> | [-> | ->]]; simpl; lia.
Qed.

Lemma risk_counts_bounded_witness :
  (riskCount "safe" [default_clause 0] + riskCount "moderate" [default_clause 0]
   + riskCount "high" [default_clause 0] = 1)%nat.
Proof.
  apply (proj2 (risk_counts_bounded [default_clause 0])).
  constructor; [right; left; reflexivity | constructor].
Defined.

(** ** The unquote and bracket tiers *)

Lemma drop_last_quote_snoc (s : string) :
  drop_last_quote (s ++ String dquote "") = s.
Proof.
  induction s as [|c r IH]; [reflexivity|].
  change (String c r ++ String dquote "") with (String c (r ++ String dquote "")).
  cbn [drop_last_quote]. rewrite IH.
  replace (r ++ String dquote "" =? "") with false by (now destruct r).
  now rewrite andb_false_r.
Qed.

(** X7: the unquote tier strips exactly one layer of quotes: a text
    wrapped in a pair of double quotes loses that pair and nothing else,
    whatever it holds. *)
Theorem unquote_wrapped (s : string) :
  unquote (String dquote (s ++ String dquote "")) = s.
Proof. unfold unquote. rewrite Ascii.eqb_refl. apply drop_last_quote_snoc. Qed.

Lemma indexOf_absent (c : ascii) (s : string) :
  occurs c s = false -> indexOf c s = (-1)%Z.
Proof.
  induction s as [|d r IH]; [reflexivity|]. simpl. intros H.
  apply orb_false_iff in H as [H1 H2]. now rewrite H1, (IH H2).
Qed.

Lemma lastIndexOf_absent (c : ascii) (s : string) :
  occurs c s = false -> lastIndexOf c s = (-1)%Z.
Proof.
  induction s as [|d r IH]; [reflexivity|]. simpl. intros H.
  apply orb_false_iff in H as [H1 H2]. now rewrite H1, (IH H2).
Qed.

(** X8: the bracket tier (on the cleaned string and on the serialized
    payload) attempts nothing unless the text holds a "[" and, after it, a
    "]": without one of them it returns nothing. *)
Theorem bracket_parse_needs_brackets (s : string) (recs : list Clause) :
  bracket_parse s = Some recs ->
  occurs "[" s = true /\ occurs "]" s = true /\
  (0 <= indexOf "[" s < lastIndexOf "]" s)%Z.
Proof.
  unfold bracket_parse.
  destruct (occurs "[" s) eqn:O1.
  - destruct (occurs "]" s) eqn:O2.
    + destruct (_ && _)%bool eqn:C; [|discriminate]. intros _.
      apply andb_true_iff in C as [C C3]. apply andb_true_iff in C as [C1 C2].
      apply Z.ltb_lt in C3. repeat split; trivial.
      assert (G : forall t, (-1 <= indexOf "[" t)%Z).
      { induction t as [|d r IH]; cbn [indexOf]; [lia|].
        destruct (Ascii.eqb "[" d); [lia|].
        destruct (indexOf "[" r =? -1)%Z; lia. }
      specialize (G s). apply negb_true_iff, Z.eqb_neq in C1. lia.
    + rewrite (lastIndexOf_absent _ _ O2). simpl.
      now rewrite andb_false_r.
  - rewrite (indexOf_absent _ _ O1). discriminate.
Qed.

Lemma bracket_parse_needs_brackets_witness :
  occurs "[" (q "see [{'text':'a'}] above") = true /\
  occurs "]" (q "see [{'text':'a'}] above") = true /\
  (0 <= indexOf "[" (q "see [{'text':'a'}] above")
   < lastIndexOf "]" (q "see [{'text':'a'}] above"))%Z.
Proof.
  apply (bracket_parse_needs_brackets (q "see [{'text':'a'}] above")
           [mkClause (JNum "0") (JStr "a") (JStr "Unspecified") "moderate" JNull]).
  vm_compute. reflexivity.
Defined.

(** ** Fenced blocks *)

Lemma ltrim_app_nonspace (s t : string) (c : ascii) :
  is_space c = false -> ltrim (s ++ String c t) = ltrim s ++ String c t.
Proof.
  intros H. induction s as [|d r IH]; simpl; [now rewrite H|].
  destruct (is_space d); [exact IH|reflexivity].
Qed.

Lemma length_append (s t : string) :
  String.length (s ++ t) = (String.length s + String.length t)%nat.
Proof. induction s as [|c r IH]; simpl; [reflexivity|now rewrite IH]. Qed.

Lemma strip_final_fence_app (x : string) :
  strip_final_fence (x ++ fence) = Some x.
Proof.
  induction x as [|c r IH]; [reflexivity|].
  change (String c r ++ fence) with (String c (r ++ fence)).
  cbn [strip_final_fence]. rewrite IH.
  destruct (String.eqb_spec (String c (r ++ fence)) fence) as [E|E];
    [|reflexivity].
  apply (f_equal String.length) in E. simpl in E.
  rewrite length_append in E. simpl in E. lia.
Qed.

Lemma clean_fenced_body (s : string) :
  trim (remove_close_fence (ltrim (s ++ fence))) = trim s.
Proof.
  pose proof (strip_final_fence_app (ltrim s)) as E. unfold fence in *.
  rewrite (ltrim_app_nonspace s "``" "`") by reflexivity.
  unfold remove_close_fence. rewrite E. unfold trim.
  now rewrite rtrim_idem, rtrim_ltrim, ltrim_idem.
Qed.

(** X9: a block wrapped in a fence cleans to its content, trimmed: with
    the [json] tag for any content, and without a tag for any content that
    does not itself begin with the letters of the tag. *)
Theorem clean_fenced (s : string) :
  clean ("```json" ++ s ++ fence) = trim s /\
  clean ("```JSON" ++ s ++ fence) = trim s /\
  (skip_json s = s -> clean (fence ++ s ++ fence) = trim s).
Proof.
  unfold clean. repeat split.
  - change (remove_open_fence ("```json" ++ s ++ fence))
      with (ltrim (s ++ fence)). apply clean_fenced_body.
  - change (remove_open_fence ("```JSON" ++ s ++ fence))
      with (ltrim (s ++ fence)). apply clean_fenced_body.
  - intros H.
    assert (E : skip_json (s ++ fence) = s ++ fence).
    { destruct s as [|a [|b [|c [|d r]]]]; [reflexivity| | | |].
      1-3: unfold fence, skip_json; cbn [append];
        destruct (Ascii.eqb (lower_char a) "j"); try reflexivity.
      1-2: destruct (Ascii.eqb (lower_char b) "s"); try reflexivity.
      1: destruct (Ascii.eqb (lower_char c) "o"); reflexivity.
      change (String a (String b (String c (String d r))) ++ fence)
        with (String a (String b (String c (String d (r ++ fence))))).
      cbn [skip_json] in *.
      destruct (_ && _)%bool; [|reflexivity].
      exfalso. apply (f_equal String.length) in H. simpl in H. lia. }
    change (remove_open_fence (fence ++ s ++ fence))
      with (ltrim (skip_json (s ++ fence))).
    rewrite E. apply clean_fenced_body.
Qed.

Lemma clean_fenced_witness :
  clean (fence ++ " [1, 2] " ++ fence) = trim " [1, 2] ".
Proof. apply (proj2 (proj2 (clean_fenced " [1, 2] "))). reflexivity. Defined.

(** ** The scan for objects *)

Lemma collect_objects_in (matches : list string) (v : value) :
  In v (collect_objects matches) ->
  exists m, In m matches /\ parse_text m = Some v.
Proof.
  induction matches as [|m r IH]; [contradiction|].
  rewrite collect_objects_cons. intros H. apply in_app_or in H as [H|H].
  - unfold JSON_parse in H. destruct (parse_text m) as [p|] eqn:E;
      [|contradiction].
    destruct H as [<-|[]]. exists m. split; [now left|exact E].
  - destruct (IH H) as [m' [Hm Hp]]. exists m'. split; [now right|exact Hp].
Qed.

(** X10: every value that [extractObjectsFromText] returns is an object:
    a match of the brace pattern that parses never parses to [null], an
    array, a string or a number. *)
Theorem extracted_values_are_objects (text : string) (v : value) :
  In v (extractObjectsFromText text) -> exists props, v = JObj props.
Proof.
  unfold extractObjectsFromText. destruct (text =? ""); [contradiction|].
  intros H. apply collect_objects_in in H as [m [Hm Hp]].
  apply brace_spans_open in Hm as [t ->]. exact (parse_text_brace _ _ Hp).
Qed.

Lemma extracted_values_are_objects_witness :
  exists props, JObj [("a", JNum "1")] = JObj props.
Proof.
  apply (extracted_values_are_objects (q "x {'a':1} null {'b' 2}")).
  vm_compute. left. reflexivity.
Defined.

(** ** The summary *)

Lemma map_r_error {A B} (f : A -> result B) (l : list A) :
  (forall x e, f x = Throw e -> e = TypeError) ->
  Exists (fun x => exists e, f x = Throw e) l ->
  map_r f l = Throw TypeError.
Proof.
  intros Hf. induction l as [|x r IH]; intros H; [inversion H|].
  simpl. destruct (f x) as [y|e] eqn:E; simpl.
  - inversion H as [? ? [e He]|? ? Hr]; subst; [congruence|].
    now rewrite (IH Hr).
  - now rewrite (Hf _ _ E).
Qed.

Lemma type_text_error (c : Clause) (e : error) :
  type_text c = Throw e -> e = TypeError.
Proof.
  unfold type_text. destruct (truthy (type c)); [|discriminate].
  destruct (type c); try discriminate; now intros [= <-].
Qed.

(** X11: only the first five records reach the summary. *)
Theorem generateSummary_first_five (rawData : value) (parsedClauses : list Clause) :
  generateSummary rawData parsedClauses
  = generateSummary rawData (firstn 5 parsedClauses).
Proof.
  unfold generateSummary.
  destruct (match opt_get rawData "summary" with JStr s => _ | _ => None end);
    [reflexivity|].
  rewrite firstn_firstn. destruct parsedClauses; reflexivity.
Qed.

(** X12: with no usable explicit summary, a record among the first five
    whose [type] is truthy and no string (a number, [true], an array, an
    object) makes [generateSummary] throw a [TypeError]. *)
Theorem generateSummary_throws_on_typed_value (rawData : value)
  (parsedClauses : list Clause) :
  (forall s, opt_get rawData "summary" <> JStr s) ->
  Exists (fun c => truthy (type c) = true /\ forall s, type c <> JStr s)
         (firstn 5 parsedClauses) ->
  generateSummary rawData parsedClauses = Throw TypeError.
Proof.
  intros Hs Hx. unfold generateSummary.
  destruct (opt_get rawData "summary") eqn:E;
    try (now destruct (Hs s)).
  all: destruct parsedClauses as [|c0 r]; [inversion Hx|].
  all: cbn [List.length Nat.eqb].
  all: rewrite (map_r_error type_text _ type_text_error); [reflexivity|].
  all: eapply Exists_impl; [|exact Hx].
  all: intros c [Ht Hn]; unfold type_text; rewrite Ht.
  all: destruct (type c); try (now eexists); now destruct (Hn s).
Qed.

Lemma generateSummary_throws_on_typed_value_witness :
  generateSummary (text_payload "x")
    [mkClause (JNum "0") (JStr "a") (JNum "3") "moderate" JNull]
  = Throw TypeError.
Proof.
  apply generateSummary_throws_on_typed_value.
  - intros s H. vm_compute in H. discriminate.
  - constructor. split; [reflexivity|]. intros s H. discriminate.
Defined.

(** ** The scan of the whole payload *)

Lemma lex_silent (st st' : lstate) (c : ascii) (t : string) :
  lex_step st c = Some ([], st') -> lex st (String c t) = lex st' t.
Proof. intros H. cbn [lex]. rewrite H. now destruct (lex st' t). Qed.

(** The lexer reads back one quoted code unit. *)
Lemma lex_quote_unit (c : ascii) (acc t : string) :
  lex (LStr acc) (quote_unit c ++ t) = lex (LStr (snoc acc c)) t.
Proof.
  destruct c as [[|] [|] [|] [|] [|] [|] [|] [|]];
    match goal with
    | |- context [quote_unit ?c] =>
        let u := eval vm_compute in (quote_unit c) in
        change (quote_unit c) with u
    end;
    cbn [append];
    repeat (erewrite lex_silent by reflexivity);
    reflexivity.
Qed.

(** The lexer reads back a quoted string. *)
Lemma lex_quote_units (s acc t : string) :
  lex (LStr acc) (quote_units s ++ String dquote t)
  = option_map (cons (TStr (acc ++ s))) (lex LDefault t).
Proof.
  revert acc. induction s as [|c r IH]; intros acc.
  - rewrite append_nil_r. cbn [quote_units append lex].
    change (lex_step (LStr acc) dquote) with (Some ([TStr acc], LDefault)).
    cbv beta iota. now destruct (lex LDefault t).
  - cbn [quote_units]. rewrite append_assoc, lex_quote_unit, IH.
    unfold snoc. now rewrite append_assoc.
Qed.

Lemma lastIndexOf_app (c : ascii) (x y : string) :
  lastIndexOf c (x ++ y)
  = if (lastIndexOf c y =? -1)%Z then lastIndexOf c x
    else (Z.of_nat (String.length x) + lastIndexOf c y)%Z.
Proof.
  induction x as [|d r IH].
  - simpl. destruct (lastIndexOf c y =? -1)%Z eqn:E; [|reflexivity].
    now apply Z.eqb_eq in E.
  - change (String d r ++ y) with (String d (r ++ y)).
    cbn [lastIndexOf String.length]. rewrite IH.
    destruct (lastIndexOf c y =? -1)%Z eqn:E; [reflexivity|].
    assert (G : forall t, (-1 <= lastIndexOf c t)%Z).
    { induction t as [|d' r' IHt]; cbn [lastIndexOf]; [lia|].
      destruct (lastIndexOf c r' =? -1)%Z; [|lia].
      destruct (Ascii.eqb c d'); lia. }
    apply Z.eqb_neq in E. pose proof (G y).
    destruct (Z.of_nat (String.length r) + lastIndexOf c y =? -1)%Z eqn:F;
      [apply Z.eqb_eq in F; lia | lia].
Qed.

Lemma substring_head (m t : string) :
  String.substring 0 (String.length m) (m ++ t) = m.
Proof.
  induction m as [|c r IH]; simpl.
  - destruct t; reflexivity.
  - now rewrite IH.
Qed.

(** The text of the payload [{clauses: [{text: s}]}]. *)
Lemma stringify_text_payload (s : string) :
  JSON_stringify (text_payload s)
  = Some (q "{'clauses':" ++ (q "[{'text':'" ++ quote_units s ++ q "'}]") ++ "}").
Proof.
  cbn. rewrite !append_assoc. reflexivity.
Qed.

Lemma lex_emit (st : lstate) (c : ascii) (t : string) :
  lex st (String c t)
  = match lex_step st c with
    | Some (toks, st') => option_map (app toks) (lex st' t)
    | None => None
    end.
Proof.
  cbn [lex]. destruct (lex_step st c) as [[toks st']|]; [|reflexivity].
  now destruct (lex st' t).
Qed.

(** The array of the payload parses back to the wrapper object. *)
Lemma parse_wrapper (s : string) :
  parse_text (q "[{'text':'" ++ quote_units s ++ q "'}]")
  = Some (JArr [JObj [("text", JStr s)]]).
Proof.
  unfold parse_text.
  assert (L : lex LDefault (q "[{'text':'" ++ quote_units s ++ q "'}]")
              = Some [TLBrack; TLBrace; TStr "text"; TColon; TStr s;
                      TRBrace; TRBrack]).
  { change (q "'}]") with (String dquote "}]").
    cbn [q append]. repeat (rewrite lex_emit; cbn -[lex quote_units append]).
    rewrite lex_quote_units. reflexivity. }
  rewrite L. reflexivity.
Qed.

Lemma payload_scan_text_payload (s : string) :
  payload_scan (text_payload s)
  = Some [mkClause (JNum "0") (JStr s) (JStr "Unspecified") "moderate" JNull].
Proof.
  unfold payload_scan. rewrite stringify_text_payload.
  set (M := q "[{'text':'" ++ quote_units s ++ q "'}]").
  assert (LM : String.length M = (13 + String.length (quote_units s))%nat).
  { unfold M. rewrite !length_append. simpl. lia. }
  unfold bracket_parse.
  assert (F : indexOf "[" (q "{'clauses':" ++ M ++ "}") = 11%Z) by reflexivity.
  assert (B : lastIndexOf "]" (q "{'clauses':" ++ M ++ "}")
              = (Z.of_nat (String.length M) + 10)%Z).
  { replace (q "{'clauses':" ++ M ++ "}")
      with (q "{'clauses':[{'text':'" ++ quote_units s ++ q "'}]}")
      by (unfold M; cbn; now rewrite !append_assoc).
    rewrite lastIndexOf_app, lastIndexOf_app.
    change (lastIndexOf "]" (q "'}]}")) with 2%Z. cbn [Z.eqb].
    rewrite LM. change (String.length (q "{'clauses':[{'text':'")) with 21%nat.
    destruct (Z.eqb_spec (Z.of_nat (String.length (quote_units s)) + 2) (-1));
      lia. }
  rewrite F, B.
  replace ((negb (11 =? -1) && negb (Z.of_nat (String.length M) + 10 =? -1)
            && (11 <? Z.of_nat (String.length M) + 10))%Z)%bool with true.
  2:{ symmetry. apply andb_true_iff. split; [apply andb_true_iff; split|].
      - reflexivity.
      - apply negb_true_iff, Z.eqb_neq. lia.
      - apply Z.ltb_lt. lia. }
  unfold substring.
  replace (Z.to_nat (Z.of_nat (String.length M) + 10 + 1 - 11))
    with (String.length M) by lia.
  change (String.substring (Z.to_nat 11) (String.length M)
            (q "{'clauses':" ++ M ++ "}"))
    with (String.substring 0 (String.length M) (M ++ "}")).
  rewrite substring_head. unfold M, parse_array, JSON_parse.
  rewrite parse_wrapper. reflexivity.
Qed.

(** X13: on a payload [{clauses: [{text: s}]}], whatever the string [s]
    holds, the scan of the whole serialized payload succeeds and gives one
    record made of the wrapper object itself, its [text] being [s].  So
    [parseNestedClauses] never reaches its last resort and never throws
    there: it returns what the tiers on the candidate return, and
    otherwise that single record. *)
Theorem text_payload_never_empty_handed (s : string) :
  payload_scan (text_payload s)
  = Some [mkClause (JNum "0") (JStr s) (JStr "Unspecified") "moderate" JNull]
  /\ parseNestedClauses (text_payload s)
     = Ok (match candidate_tiers s with
        | Some recs => recs
        | None =>
            [mkClause (JNum "0") (JStr s) (JStr "Unspecified") "moderate" JNull]
        end).
Proof.
  split; [apply payload_scan_text_payload|].
  unfold parseNestedClauses, normalized_tiers.
  change (candidate_of (text_payload s)) with (Some s).
  change (negb (truthy (text_payload s))) with false. cbv iota.
  destruct (candidate_tiers s); [reflexivity|].
  cbn [or_else]. now rewrite payload_scan_text_payload.
Qed.

(** ** Field resolution *)

(** X14: an item that has none of the nine fields read by [normalize] (an
    object without them, but also a number, a string or a boolean met in
    the array) becomes the default record: empty text, type
    [Unspecified], risk [moderate], no implications. *)
Theorem normalize_item_defaults (item : value) (idx : nat) :
  Forall (fun k => get item k = Ok JUndefined) field_names ->
  normalize_item item idx = Ok (default_clause idx).
Proof.
  intros H. unfold field_names in H.
  repeat match goal with
         | H : Forall _ (_ :: _) |- _ =>
             let E := fresh "E" in
             inversion H as [|? ? E H']; subst; clear H; rename H' into H
         end.
  unfold normalize_item, coalesce_r.
  repeat match goal with E : get item _ = _ |- _ => rewrite E; clear E end.
  reflexivity.
Qed.

Lemma normalize_item_defaults_witness :
  normalize_item (JNum "7") 3 = Ok (default_clause 3).
Proof. apply normalize_item_defaults. repeat constructor. Defined.

(** X15: the two paths resolve the fields in opposite orders: for an
    object that has both [clause_text] and [text], and both [risk_level]
    and [risk], [normalize] keeps [clause_text] and [risk_level], the last
    resort keeps [text] and [risk]; both write the risk in lower case. *)
Theorem field_precedence (props : list (string * value)) (idx : nat)
  (a b x y : string) :
  lookup "clause_text" props = Some (JStr a) ->
  lookup "text" props = Some (JStr b) ->
  lookup "risk_level" props = Some (JStr x) ->
  lookup "risk" props = Some (JStr y) ->
  (exists r, normalize_item (JObj props) idx = Ok r /\
             text r = JStr a /\ risk r = toLowerCase x) /\
  (exists r, direct_item (JObj props) idx = Ok r /\
             text r = JStr b /\ risk r = toLowerCase y).
Proof.
  intros Ha Hb Hx Hy. split.
  - unfold normalize_item, coalesce_r, get. rewrite Ha, Hx. cbn.
    destruct (nullish _); cbn;
      repeat match goal with
             | |- context [nullish ?v] => destruct (nullish v); cbn
             end; eexists; repeat split.
  - unfold direct_item, coalesce_r, get. rewrite Hb, Hy. cbn.
    destruct (nullish _); cbn;
      repeat match goal with
             | |- context [nullish ?v] => destruct (nullish v); cbn
             end; eexists; repeat split.
Qed.

Lemma field_precedence_witness :
  (exists r,
      normalize_item
        (JObj [("text", JStr "t"); ("clause_text", JStr "c");
               ("risk", JStr "Safe"); ("risk_level", JStr "HIGH")]) 0 = Ok r /\
      text r = JStr "c" /\ risk r = toLowerCase "HIGH") /\
  (exists r,
      direct_item
        (JObj [("text", JStr "t"); ("clause_text", JStr "c");
               ("risk", JStr "Safe"); ("risk_level", JStr "HIGH")]) 0 = Ok r /\
      text r = JStr "t" /\ risk r = toLowerCase "Safe").
Proof. apply field_precedence; reflexivity. Defined.

Lemma printable_toString (v : value) :
  printable v = true -> nullish v = false ->
  exists s, call_toString v = Ok s.
Proof.
  unfold call_toString. intros P N. rewrite N.
  destruct v; try discriminate; now eexists.
Qed.

Lemma plain_item_normalizes (x : value) (idx : nat) :
  plain_item x = true -> exists r, normalize_item x idx = Ok r.
Proof.
  destruct x as [| | | | | |props]; try discriminate. cbn [plain_item].
  intros H. apply andb_true_iff in H as [H1 H2].
  unfold normalize_item.
  destruct (get (JObj props) "clause_text" ?? get (JObj props) "text"
            ?? Ok (JStr "")) as [t|] eqn:Et;
    [|unfold coalesce_r, get in Et; cbn in Et;
      repeat (match type of Et with
              | context [nullish ?v] => destruct (nullish v)
              end; cbn in Et); discriminate].
  destruct (get (JObj props) "clause_type_category"
            ?? get (JObj props) "clause_type"
            ?? get (JObj props) "type" ?? Ok (JStr "Unspecified"))
    as [ty|] eqn:Ety;
    [|unfold coalesce_r, get in Ety; cbn in Ety;
      repeat (match type of Ety with
              | context [nullish ?v] => destruct (nullish v)
              end; cbn in Ety); discriminate].
  destruct (get (JObj props) "brief_explanation_of_implications"
            ?? get (JObj props) "implications" ?? Ok JNull)
    as [im|] eqn:Eim;
    [|unfold coalesce_r, get in Eim; cbn in Eim;
      repeat (match type of Eim with
              | context [nullish ?v] => destruct (nullish v)
              end; cbn in Eim); discriminate].
  assert (R : exists s,
             (rk <- (get (JObj props) "risk_level" ?? get (JObj props) "risk"
                     ?? Ok (JStr "moderate")) ;; call_toString rk) = Ok s).
  { unfold coalesce_r, get. cbn [bind].
    destruct (lookup "risk_level" props) as [v1|];
      destruct (lookup "risk" props) as [v2|]; cbn [nullish];
      repeat match goal with
             | |- context [if nullish ?v then _ else _] =>
                 let N := fresh "N" in destruct (nullish v) eqn:N; cbn [bind]
             end;
      try (now apply printable_toString); now eexists. }
  destruct R as [s R]. cbn [bind].
  destruct (get (JObj props) "risk_level" ?? get (JObj props) "risk"
            ?? Ok (JStr "moderate")) as [rk|]; [|discriminate].
  cbn [bind] in *. rewrite R. cbn [bind]. now eexists.
Qed.

(** X16: a batch of objects whose risk fields, when present, hold
    primitives is normalized without exception, one record per object, in
    the order of the batch. *)
Theorem normalize_plain_batch (arr : list value) :
  forallb plain_item arr = true ->
  exists recs, normalize arr = Ok recs /\ List.length recs = List.length arr.
Proof.
  unfold normalize, array_map. generalize 0.
  induction arr as [|x r IH]; intros idx H; simpl.
  - now exists [].
  - simpl in H. apply andb_true_iff in H as [Hx Hr].
    destruct (plain_item_normalizes x idx Hx) as [y Hy].
    destruct (IH (S idx) Hr) as [ys [Hys L]].
    rewrite Hy, Hys. simpl. exists (y :: ys). split; [reflexivity|].
    simpl. now rewrite L.
Qed.

Lemma normalize_plain_batch_witness :
  exists recs,
    normalize [JObj [("text", JStr "a"); ("risk", JNum "3")]; JObj []]
    = Ok recs /\ List.length recs = 2%nat.
Proof.
  apply (normalize_plain_batch
           [JObj [("text", JStr "a"); ("risk", JNum "3")]; JObj []]).
  reflexivity.
Defined.

(** ** Objects found by the brace pattern hold no object *)

Lemma objects_in_arr (items : list value) :
  objects_in (JArr items) = objects_in_list items.
Proof. reflexivity. Qed.

Lemma objects_in_obj (props : list (string * value)) :
  objects_in (JObj props) = S (objects_in_props props).
Proof. reflexivity. Qed.

Lemma objects_in_list_app (l r : list value) :
  objects_in_list (l ++ r) = (objects_in_list l + objects_in_list r)%nat.
Proof. induction l as [|x l IH]; simpl; [reflexivity|]. rewrite IH. lia. Qed.

Lemma objects_in_list_rev (l : list value) :
  objects_in_list (rev l) = objects_in_list l.
Proof.
  induction l as [|x l IH]; simpl; [reflexivity|].
  rewrite objects_in_list_app, IH. simpl. lia.
Qed.

Lemma objects_in_props_app (l r : list (string * value)) :
  objects_in_props (l ++ r) = (objects_in_props l + objects_in_props r)%nat.
Proof.
  induction l as [|[k x] l IH]; simpl; [reflexivity|]. rewrite IH. lia.
Qed.

Lemma obj_replace_objects (k : string) (v : value) (props : list (string * value)) :
  (objects_in_props (obj_replace k v props)
   <= objects_in_props props + objects_in v)%nat.
Proof.
  induction props as [|[k' v'] r IH]; simpl; [lia|].
  destruct (k =? k'); simpl; lia.
Qed.

Lemma obj_insert_index_objects (n : N) (k : string) (v : value)
  (props : list (string * value)) :
  objects_in_props (obj_insert_index n k v props)
  = (objects_in_props props + objects_in v)%nat.
Proof.
  induction props as [|[k' v'] r IH]; simpl; [lia|].
  destruct (array_index k') as [m|]; [destruct (m <? n)%N|]; simpl; lia.
Qed.

Lemma obj_set_objects (props : list (string * value)) (k : string) (v : value) :
  (objects_in_props (obj_set props k v)
   <= objects_in_props props + objects_in v)%nat.
Proof.
  unfold obj_set. destruct (lookup k props).
  - apply obj_replace_objects.
  - destruct (array_index k).
    + rewrite obj_insert_index_objects. lia.
    + rewrite objects_in_props_app. simpl. lia.
Qed.

Lemma deliver_objects (v : value) (stk : list frame) :
  (objects_in_state (deliver v stk) <= objects_in v + objects_in_stack stk)%nat.
Proof.
  destruct stk as [|[items|props k] r]; simpl; try lia.
  pose proof (obj_set_objects props k v). lia.
Qed.

Lemma parse_step_objects (st st' : pstate) (t : token) :
  parse_step st t = Some st' ->
  (objects_in_state st'
   <= objects_in_state st + closing_braces [t])%nat.
Proof.
  assert (O : forall t stk st', open_value t stk = Some st' ->
              (objects_in_state st' <= objects_in_stack stk)%nat).
  { intros t0 stk st0. destruct t0; simpl; try discriminate;
      intros [= <-]; simpl; try lia;
      match goal with
      | |- context [deliver ?v stk] => pose proof (deliver_objects v stk)
      end; simpl in *; lia. }
  assert (A : forall stk st', close_array stk = Some st' ->
              (objects_in_state st' <= objects_in_stack stk)%nat).
  { intros [|[items|props k] r] st0; simpl; try discriminate.
    intros [= <-]. pose proof (deliver_objects (JArr (rev items)) r) as D.
    rewrite objects_in_arr, objects_in_list_rev in D. lia. }
  assert (C : forall stk st', close_object stk = Some st' ->
              (objects_in_state st' <= S (objects_in_stack stk))%nat).
  { intros [|[items|props k] r] st0; simpl; try discriminate.
    intros [= <-]. pose proof (deliver_objects (JObj props) r) as D.
    rewrite objects_in_obj in D. lia. }
  assert (K : forall k stk st', set_key k stk = Some st' ->
              (objects_in_state st' <= objects_in_stack stk)%nat).
  { intros k [|[items|props k'] r] st0; simpl; try discriminate.
    intros [= <-]. simpl. lia. }
  destruct st as [stk|stk|stk|stk|stk|stk|v]; cbn [parse_step];
    intros E; cbn [objects_in_state].
  - apply O in E. lia.
  - destruct t; try (apply O in E; lia). apply A in E. simpl. lia.
  - destruct t; try discriminate; [apply C in E | apply K in E]; simpl; lia.
  - destruct t; try discriminate. apply K in E. lia.
  - destruct t; try discriminate. injection E as <-. simpl. lia.
  - destruct t; try discriminate.
    + apply C in E. simpl. lia.
    + apply A in E. simpl. lia.
    + destruct stk as [|[|] r]; try discriminate; injection E as <-; simpl; lia.
  - discriminate.
Qed.

Lemma parse_tokens_objects (toks : list token) (st : pstate) (v : value) :
  parse_tokens st toks = Some v ->
  (objects_in v <= objects_in_state st + closing_braces toks)%nat.
Proof.
  revert st. induction toks as [|t r IH]; intros st E; simpl in E.
  - destruct st; try discriminate. injection E as <-. simpl. lia.
  - destruct (parse_step st t) as [st'|] eqn:S; [|discriminate].
    apply IH in E. apply parse_step_objects in S.
    assert (closing_braces (t :: r)
            = (closing_braces [t] + closing_braces r)%nat)
      by (destruct t; reflexivity).
    lia.
Qed.

Lemma closing_braces_app (l r : list token) :
  closing_braces (l ++ r) = (closing_braces l + closing_braces r)%nat.
Proof.
  induction l as [|t l IH]; [reflexivity|].
  destruct t; simpl; rewrite IH; reflexivity.
Qed.

Lemma lex_default_braces (c : ascii) (toks : list token) (st' : lstate) :
  lex_default c = Some (toks, st') ->
  (closing_braces toks <= count_char "}" (String c ""))%nat.
Proof.
  unfold lex_default. cbn [count_char].
  destruct (Ascii.eqb "}" c) eqn:E.
  - apply Ascii.eqb_eq in E. subst c. intros [= <- <-]. simpl. lia.
  - rewrite Ascii.eqb_sym in E. rewrite E.
    repeat match goal with
           | |- (if ?b then _ else _) = _ -> _ =>
               destruct b; [intros [= <- <-]; simpl; lia|]
           end.
    discriminate.
Qed.

Lemma lex_step_braces (st st' : lstate) (c : ascii) (toks : list token) :
  lex_step st c = Some (toks, st') ->
  (closing_braces toks <= count_char "}" (String c ""))%nat.
Proof.
  destruct st as [|acc|acc|acc hex|acc ns|rest lit]; simpl lex_step.
  - apply lex_default_braces.
  - repeat match goal with
           | |- (if ?b then _ else _) = _ -> _ =>
               destruct b; [intros [= <- <-]; simpl; lia|]
           end.
    intros [= <- <-]; simpl; lia.
  - destruct (Ascii.eqb c "u"); [intros [= <- <-]; simpl; lia|].
    destruct (escape_char c); intros [= <- <-]; simpl; lia.
  - destruct (hex_value c); [|discriminate].
    destruct (_ =? 4)%nat; intros [= <- <-]; simpl; lia.
  - destruct (num_next ns c); [intros [= <- <-]; simpl; lia|].
    destruct (num_final ns); [|discriminate].
    destruct (lex_default c) as [[toks' st0]|] eqn:D; [|discriminate].
    intros [= <- <-]. apply lex_default_braces in D. simpl in *. lia.
  - destruct rest as [|d r]; [discriminate|].
    destruct (Ascii.eqb c d); [|discriminate].
    destruct (r =? ""); intros [= <- <-]; [|simpl; lia].
    destruct lit as [[|]|]; simpl; lia.
Qed.

Lemma lex_braces (s : string) (st : lstate) (toks : list token) :
  lex st s = Some toks -> (closing_braces toks <= count_char "}" s)%nat.
Proof.
  revert st toks. induction s as [|c r IH]; intros st toks E.
  - destruct st as [|acc|acc|acc hex|acc ns|rest lit]; simpl in E;
      try discriminate.
    + injection E as <-. simpl. lia.
    + destruct (num_final ns); [|discriminate]. injection E as <-. simpl. lia.
  - cbn [lex] in E.
    destruct (lex_step st c) as [[emitted st']|] eqn:S; [|discriminate].
    destruct (lex st' r) as [rest|] eqn:L; [|discriminate].
    injection E as <-. rewrite closing_braces_app.
    apply IH in L. apply lex_step_braces in S. cbn [count_char] in *. lia.
Qed.

(** A text holds at least as many closing braces as the value it parses
    to holds objects. *)
Lemma parse_text_objects (s : string) (v : value) :
  parse_text s = Some v -> (objects_in v <= count_char "}" s)%nat.
Proof.
  unfold parse_text. destruct (lex LDefault s) as [toks|] eqn:L; [|discriminate].
  intros E. apply parse_tokens_objects in E. apply lex_braces in L.
  simpl in E. lia.
Qed.

Lemma count_char_snoc (c d : ascii) (acc : string) :
  count_char c (snoc acc d)
  = (count_char c acc + if Ascii.eqb c d then 1 else 0)%nat.
Proof.
  unfold snoc. induction acc as [|a r IH]; simpl; [lia|]. rewrite IH. lia.
Qed.

Lemma brace_spans_from_one_brace (s : string) (cur : option string) (m : string) :
  (forall acc, cur = Some acc -> count_char "}" acc = 0%nat) ->
  In m (brace_spans_from cur s) -> count_char "}" m = 1%nat.
Proof.
  revert cur. induction s as [|c r IH]; intros cur Hc H; [contradiction|].
  cbn [brace_spans_from] in H. destruct cur as [acc|].
  - destruct (Ascii.eqb c "}") eqn:E.
    + destruct H as [<-|H].
      * rewrite count_char_snoc, (Hc acc eq_refl), Ascii.eqb_sym, E.
        reflexivity.
      * apply (IH None); [discriminate|exact H].
    + apply (IH (Some (snoc acc c))); [|exact H].
      intros a [= <-].
      now rewrite count_char_snoc, (Hc acc eq_refl), Ascii.eqb_sym, E.
  - destruct (Ascii.eqb c "{").
    + apply (IH (Some "{")); [|exact H]. now intros a [= <-].
    + apply (IH None); [discriminate|exact H].
Qed.

(** Every match of the brace pattern holds one closing brace, its last
    character. *)
Lemma brace_spans_one_brace (s m : string) :
  In m (brace_spans s) -> count_char "}" m = 1%nat.
Proof. apply brace_spans_from_one_brace. discriminate. Qed.

Lemma object_free_list (items : list value) :
  objects_in_list items = 0%nat -> Forall (fun x => objects_in x = 0%nat) items.
Proof.
  induction items as [|x r IH]; simpl; intros H; constructor; [lia|].
  apply IH. lia.
Qed.

Lemma lookup_objects (k : string) (props : list (string * value)) (v : value) :
  lookup k props = Some v -> (objects_in v <= objects_in_props props)%nat.
Proof.
  induction props as [|[k' x] r IH]; simpl; [discriminate|].
  destruct (k =? k'); [intros [= <-]; lia|]. intros H. apply IH in H. lia.
Qed.

(** A value that holds no object has a string form. *)
Lemma object_free_ToString (v : value) :
  objects_in v = 0%nat -> exists s, ToString v = Ok s.
Proof.
  induction v as [| | | | |items IH|props _] using value_induction;
    intros H; [now eexists ..| |discriminate H].
  rewrite ToString_array. rewrite objects_in_arr in H.
  assert (J : exists parts, join_values items = Ok parts).
  { apply object_free_list in H.
    induction items as [|x r IHr]; [now exists []|].
    inversion IH as [|? ? Hx Hr]; subst. inversion H as [|? ? Ox Or]; subst.
    destruct (IHr Hr Or) as [ps Eps]. simpl.
    destruct (nullish x).
    - rewrite Eps. simpl. now eexists.
    - destruct (Hx Ox) as [t Et]. rewrite Et, Eps. simpl. now eexists. }
  destruct J as [parts ->]. simpl. now eexists.
Qed.

Lemma coalesce_r_total (a b : result value) :
  (exists x, a = Ok x) -> (exists y, b = Ok y) -> exists z, (a ?? b) = Ok z.
Proof.
  intros [x ->] [y ->]. unfold coalesce_r. simpl.
  destruct (nullish x); now eexists.
Qed.

Lemma get_object (props : list (string * value)) (k : string) :
  exists x, get (JObj props) k = Ok x.
Proof. simpl. now eexists. Qed.

Lemma coalesce_r_cases (a b : result value) (v : value) :
  (a ?? b) = Ok v ->
  (a = Ok v /\ nullish v = false) \/ b = Ok v.
Proof.
  unfold coalesce_r. destruct a as [x|]; [|discriminate]. simpl.
  destruct (nullish x) eqn:N; [now right|]. intros [= <-]. now left.
Qed.

(** An object whose properties hold no object is normalized without
    exception. *)
Lemma normalize_flat_object (props : list (string * value)) (idx : nat) :
  objects_in_props props = 0%nat ->
  exists r, normalize_item (JObj props) idx = Ok r.
Proof.
  intros H. unfold normalize_item.
  destruct (coalesce_r_total (get (JObj props) "clause_text")
              (get (JObj props) "text" ?? Ok (JStr ""))) as [t ->];
    [apply get_object | apply coalesce_r_total; [apply get_object|now eexists] |].
  destruct (coalesce_r_total (get (JObj props) "clause_type_category")
              (get (JObj props) "clause_type" ?? get (JObj props) "type"
               ?? Ok (JStr "Unspecified"))) as [ty ->];
    [apply get_object
    | repeat (apply coalesce_r_total; [apply get_object|]); now eexists |].
  destruct (coalesce_r_total (get (JObj props) "risk_level")
              (get (JObj props) "risk" ?? Ok (JStr "moderate"))) as [rk Erk];
    [apply get_object | apply coalesce_r_total; [apply get_object|now eexists] |].
  rewrite Erk. cbn [bind].
  assert (R : exists s, call_toString rk = Ok s).
  { unfold call_toString.
    assert (G : forall k x, get (JObj props) k = Ok x -> nullish x = false ->
                objects_in x = 0%nat).
    { intros k x. simpl. destruct (lookup k props) as [y|] eqn:L.
      - intros [= <-] _. apply lookup_objects in L. lia.
      - intros [= <-]. discriminate. }
    apply coalesce_r_cases in Erk as [[E N]|Erk].
    - rewrite N. apply object_free_ToString. exact (G _ _ E N).
    - apply coalesce_r_cases in Erk as [[E N]|Erk].
      + rewrite N. apply object_free_ToString. exact (G _ _ E N).
      + injection Erk as <-. now eexists. }
  destruct R as [s ->]. cbn [bind].
  destruct (coalesce_r_total (get (JObj props) "brief_explanation_of_implications")
              (get (JObj props) "implications" ?? Ok JNull)) as [im ->];
    [apply get_object | apply coalesce_r_total; [apply get_object|now eexists] |].
  cbn [bind]. now eexists.
Qed.

Lemma map_from_total {A B} (f : A -> nat -> result B) (l : list A) :
  (forall x i, In x l -> exists y, f x i = Ok y) ->
  forall idx, exists ys,
    map_from f idx l = Ok ys /\ List.length ys = List.length l.
Proof.
  induction l as [|x r IH]; intros H idx; simpl.
  - now exists [].
  - destruct (H x idx (or_introl eq_refl)) as [y ->].
    destruct (IH (fun x' i Hx => H x' i (or_intror Hx)) (S idx)) as [ys [-> L]].
    simpl. exists (y :: ys). split; [reflexivity|]. simpl. now rewrite L.
Qed.

Lemma collected_objects_flat (matches : list string) (v : value) :
  (forall m, In m matches -> exists t, m = String "{" t) ->
  (forall m, In m matches -> count_char "}" m = 1%nat) ->
  In v (collect_objects matches) ->
  exists props, v = JObj props /\ objects_in_props props = 0%nat.
Proof.
  intros Ho Hc H. apply collect_objects_in in H as [m [Hm Hp]].
  destruct (Ho m Hm) as [t ->].
  destruct (parse_text_brace _ _ Hp) as [props ->].
  exists props. split; [reflexivity|].
  apply parse_text_objects in Hp. rewrite (Hc _ Hm), objects_in_obj in Hp. lia.
Qed.

Lemma normalize_collected (s : string) :
  exists recs,
    normalize (collect_objects (brace_spans s)) = Ok recs /\
    List.length recs = List.length (collect_objects (brace_spans s)).
Proof.
  apply map_from_total. intros x i Hx.
  destruct (collected_objects_flat (brace_spans s) x
              (brace_spans_open s) (brace_spans_one_brace s) Hx)
    as [props [-> Hf]].
  now apply normalize_flat_object.
Qed.

Lemma object_matches_total (c : string) :
  exists oc,
    array_map normalize_item
      (if c =? "" then [] else extractObjectsFromText c) = Ok oc.
Proof.
  unfold extractObjectsFromText. destruct (c =? ""); [now exists []|].
  destruct (normalize_collected c) as [recs [E _]]. now exists recs.
Qed.

(** X17: normalizing what [extractObjectsFromText] returns never throws,
    whatever the text: each match of the brace pattern that parses is an
    object holding no other object, so its risk always has a string form;
    there is one record per parsed match. *)
Theorem object_clauses_never_throw (text : string) :
  exists objectClauses,
    array_map normalize_item (extractObjectsFromText text) = Ok objectClauses /\
    List.length objectClauses = List.length (extractObjectsFromText text).
Proof.
  unfold extractObjectsFromText. destruct (text =? "").
  - now exists [].
  - apply normalize_collected.
Qed.

(** X18: the scan for objects inside [parseNestedClauses] gives nothing
    only when no match of the brace pattern parses; otherwise it returns
    one record per match that parses. *)
Theorem object_scan_complete (cleaned : string) :
  match object_scan cleaned with
  | Some recs =>
      recs <> [] /\
      List.length recs = List.length (collect_objects (brace_spans cleaned))
  | None => collect_objects (brace_spans cleaned) = []
  end.
Proof.
  unfold object_scan.
  destruct (normalize_collected cleaned) as [recs [E L]].
  destruct (collect_objects (brace_spans cleaned)) as [|v r] eqn:C.
  - reflexivity.
  - cbn [List.length Nat.ltb Nat.leb]. rewrite E. simpl.
    split; [|exact L]. destruct recs; [discriminate|discriminate].
Qed.

(** X19: an exception leaves the extraction in two cases only: the last
    resort of [parseNestedClauses] threw, or the [text] field of the first
    element of [clauses] is a truthy value that is no string (its
    [replace] is no function). *)
Theorem extraction_throws_iff (rawData : value) (e : error) :
  extraction rawData = Throw e <->
  parseNestedClauses rawData = Throw e \/
  ((exists parsedClauses, parseNestedClauses rawData = Ok parsedClauses) /\
   e = TypeError /\
   truthy (first_clause_field rawData "text") = true /\
   forall s, first_clause_field rawData "text" <> JStr s).
Proof.
  unfold extraction.
  destruct (parseNestedClauses rawData) as [parsed|e'] eqn:P; cbn [bind].
  - set (t := first_clause_field rawData "text").
    assert (T : truthy (coalesce t JNull) = truthy t) by now destruct t.
    rewrite T. destruct (truthy t) eqn:Tt.
    + destruct t as [| |b|l|s|items|props] eqn:Et; try discriminate;
        cbn [coalesce nullish bind].
      1,2,4,5: split;
        [ intros [= <-]; right; repeat split; eauto; discriminate
        | intros [H|H]; [discriminate|]; destruct H as [_ [-> _]]; reflexivity ].
      split.
      * intros H. exfalso.
        destruct (object_matches_total (clean s)) as [oc Eoc].
        rewrite Eoc in H. discriminate.
      * intros [H|[_ [_ [_ H]]]]; [discriminate|]. now destruct (H s).
    + cbn [bind]. split; [discriminate|].
      intros [H|[_ [_ [H _]]]]; discriminate.
  - split; [intros [= <-]; now left|].
    intros [[= <-]|[[x H] _]]; [reflexivity|discriminate].
Qed.

(** ** [JSON.parse] reads back what [JSON.stringify] writes *)

Lemma well_formed_arr (items : list value) :
  well_formed (JArr items) = well_formed_list items.
Proof. reflexivity. Qed.

Lemma well_formed_obj (props : list (string * value)) :
  well_formed (JObj props) = (rebuild props = props /\ well_formed_props props).
Proof. reflexivity. Qed.

Lemma tokens_of_arr (items : list value) :
  tokens_of (JArr items) = TLBrack :: (elems_tokens items ++ [TRBrack])%list.
Proof. reflexivity. Qed.

Lemma tokens_of_obj (props : list (string * value)) :
  tokens_of (JObj props) = TLBrace :: (members_tokens props ++ [TRBrace])%list.
Proof. reflexivity. Qed.

Lemma stringify_arr (items : list value) :
  JSON_stringify (JArr items)
  = Some ("[" ++ join "," (map element_text items) ++ "]").
Proof. reflexivity. Qed.

Lemma stringify_obj (props : list (string * value)) :
  JSON_stringify (JObj props)
  = Some ("{" ++ join "," (members_text props) ++ "}").
Proof. reflexivity. Qed.

Ltac list_assoc :=
  repeat (rewrite <- app_assoc || rewrite <- app_comm_cons);
  cbn [app]; try reflexivity.

Lemma option_map_app {A} (a b : list A) (x : option (list A)) :
  option_map (app a) (option_map (app b) x) = option_map (app (a ++ b)) x.
Proof. destruct x; simpl; [now rewrite app_assoc|reflexivity]. Qed.

Lemma lex_app (a b : string) (st : lstate) :
  lex st (a ++ b)
  = match lex_run st a with
    | Some (toks, st') => option_map (app toks) (lex st' b)
    | None => None
    end.
Proof.
  revert st. induction a as [|c r IH]; intros st.
  - simpl. now destruct (lex st b).
  - change (String c r ++ b) with (String c (r ++ b)).
    rewrite lex_emit. cbn [lex_run].
    destruct (lex_step st c) as [[toks st']|]; [|reflexivity].
    rewrite IH. destruct (lex_run st' r) as [[rest st'']|]; [|reflexivity].
    now rewrite option_map_app.
Qed.

Lemma num_next_delimiter (ns : numstate) (c : ascii) :
  (Ascii.eqb c "," || Ascii.eqb c "]" || Ascii.eqb c "}")%bool = true ->
  num_next ns c = None /\
  exists t, lex_default c = Some ([t], LDefault).
Proof.
  intros H. apply orb_true_iff in H as [H|H];
    [apply orb_true_iff in H as [H|H]|];
    apply Ascii.eqb_eq in H; subst c; (split; [now destruct ns|now eexists]).
Qed.

Lemma lex_number (l rest : string) :
  valid_number l = true -> delimited rest = true ->
  lex LDefault (l ++ rest) = option_map (app [TNum l]) (lex LDefault rest).
Proof.
  unfold valid_number. intros V D. rewrite lex_app.
  destruct (lex_run LDefault l) as [[[|] [|acc|acc|acc hex|acc ns|r lit]]|];
    try discriminate.
  apply andb_true_iff in V as [F E]. apply String.eqb_eq in E. subst acc.
  destruct rest as [|c r].
  - simpl. now rewrite F.
  - simpl in D. destruct (num_next_delimiter ns c D) as [N [t T]].
    rewrite !lex_emit. cbn [lex_step]. rewrite N, F, T.
    simpl. now destruct (lex LDefault r).
Qed.

Lemma lex_string (s rest : string) :
  lex LDefault (quote s ++ rest)
  = option_map (app [TStr s]) (lex LDefault rest).
Proof.
  unfold quote.
  change (String dquote (quote_units s ++ String dquote "") ++ rest)
    with (String dquote ((quote_units s ++ String dquote "") ++ rest)).
  rewrite lex_emit.
  change (lex_step LDefault dquote) with (Some (@nil token, LStr "")).
  cbv beta iota. rewrite append_assoc. cbn [append].
  rewrite lex_quote_units. cbn [append].
  now destruct (lex LDefault rest).
Qed.

Lemma lex_elements (items : list value) (rest : string) :
  Forall lexes_back items -> well_formed_list items ->
  lex LDefault (join "," (map element_text items) ++ String "]" rest)
  = option_map (app (elems_tokens items ++ [TRBrack])) (lex LDefault rest).
Proof.
  induction 1 as [|x r Hx Hr IH]; intros W.
  - cbn [map join append elems_tokens app]. rewrite lex_emit.
    change (lex_step LDefault "]") with (Some ([TRBrack], LDefault)).
    reflexivity.
  - destruct W as [Wx Wr]. destruct r as [|y r'].
    + cbn [map join elems_tokens]. rewrite (Hx Wx) by reflexivity.
      rewrite lex_emit.
      change (lex_step LDefault "]") with (Some ([TRBrack], LDefault)).
      cbv beta iota. rewrite option_map_app. now rewrite app_nil_r.
    + change (join "," (map element_text (x :: y :: r')))
        with (element_text x ++ "," ++ join "," (map element_text (y :: r'))).
      rewrite !append_assoc. rewrite (Hx Wx) by reflexivity.
      cbn [append]. rewrite lex_emit.
      change (lex_step LDefault ",") with (Some ([TComma], LDefault)).
      cbv beta iota. rewrite (IH Wr), !option_map_app.
      cbn [elems_tokens]. f_equal. f_equal. list_assoc.
Qed.

Lemma well_formed_stringify (v : value) :
  well_formed v -> exists t, JSON_stringify v = Some t.
Proof. destruct v; simpl; intros H; [contradiction|now eexists ..]. Qed.

Lemma lex_members (props : list (string * value)) (rest : string) :
  Forall (fun kv => lexes_back (snd kv)) props -> well_formed_props props ->
  lex LDefault (join "," (members_text props) ++ String "}" rest)
  = option_map (app (members_tokens props ++ [TRBrace])) (lex LDefault rest).
Proof.
  induction 1 as [|[k x] r Hx Hr IH]; intros W.
  - cbn [members_text join append members_tokens app]. rewrite lex_emit.
    change (lex_step LDefault "}") with (Some ([TRBrace], LDefault)).
    reflexivity.
  - destruct W as [Wx Wr]. simpl in Hx.
    destruct (well_formed_stringify x Wx) as [t Et].
    assert (Ex : element_text x = t) by (unfold element_text; now rewrite Et).
    cbn [members_text]. rewrite Et.
    destruct r as [|[k' y] r'].
    + cbn [members_text join members_tokens].
      rewrite !append_assoc, lex_string. cbn [append]. rewrite lex_emit.
      change (lex_step LDefault ":") with (Some ([TColon], LDefault)).
      cbv beta iota. rewrite <- Ex, (Hx Wx) by reflexivity.
      rewrite lex_emit.
      change (lex_step LDefault "}") with (Some ([TRBrace], LDefault)).
      cbv beta iota. rewrite !option_map_app. f_equal. simpl.
      now rewrite app_nil_r.
    + destruct Wr as [Wy Wr'].
      destruct (well_formed_stringify y Wy) as [u Eu].
      assert (M : members_text ((k', y) :: r')
                  = (quote k' ++ ":" ++ u) :: members_text r')
        by (cbn [members_text]; now rewrite Eu).
      specialize (IH (conj Wy Wr')). rewrite M in *.
      change (join "," ((quote k ++ ":" ++ t)
                        :: (quote k' ++ ":" ++ u) :: members_text r'))
        with ((quote k ++ ":" ++ t) ++ ","
              ++ join "," ((quote k' ++ ":" ++ u) :: members_text r')).
      rewrite !append_assoc, lex_string. cbn [append]. rewrite lex_emit.
      change (lex_step LDefault ":") with (Some ([TColon], LDefault)).
      cbv beta iota. rewrite <- Ex, (Hx Wx) by reflexivity.
      rewrite lex_emit.
      change (lex_step LDefault ",") with (Some ([TComma], LDefault)).
      cbv beta iota. cbn [append] in IH.
      rewrite IH, !option_map_app. f_equal.
      cbn [members_tokens]. list_assoc.
Qed.

Lemma lex_value (v : value) : lexes_back v.
Proof.
  induction v as [| |b|l|s|items IH|props IH] using value_induction;
    intros W rest D.
  - destruct W.
  - cbn. repeat (rewrite lex_emit; cbn -[lex]). now destruct (lex LDefault rest).
  - destruct b; cbn; repeat (rewrite lex_emit; cbn -[lex]);
      now destruct (lex LDefault rest).
  - now apply lex_number.
  - apply lex_string.
  - unfold element_text. rewrite stringify_arr, tokens_of_arr.
    rewrite !append_assoc. cbn [append]. rewrite lex_emit.
    change (lex_step LDefault "[") with (Some ([TLBrack], LDefault)).
    cbv beta iota. rewrite (lex_elements items rest IH W), option_map_app.
    reflexivity.
  - unfold element_text. rewrite stringify_obj, tokens_of_obj.
    rewrite !append_assoc. cbn [append]. rewrite lex_emit.
    change (lex_step LDefault "{") with (Some ([TLBrace], LDefault)).
    cbv beta iota. destruct W as [_ W].
    rewrite (lex_members props rest IH W), option_map_app.
    reflexivity.
Qed.

Lemma parse_first (v : value) (stk : list frame) (rest : list token) :
  well_formed v ->
  parse_tokens (PFirst stk) (tokens_of v ++ rest)
  = parse_tokens (PValue stk) (tokens_of v ++ rest).
Proof. destruct v as [| |[|]| | | |]; intros W; [destruct W|reflexivity ..]. Qed.

Lemma parse_elements (items : list value) :
  Forall parses_back items -> well_formed_list items -> items <> [] ->
  forall acc stk rest,
  parse_tokens (PValue (FArr acc :: stk)) (elems_tokens items ++ TRBrack :: rest)
  = parse_tokens (deliver (JArr (rev acc ++ items)) stk) rest.
Proof.
  induction 1 as [|x r Hx Hr IH]; intros W N acc stk rest; [congruence|].
  destruct W as [Wx Wr]. cbn [elems_tokens]. rewrite <- app_assoc.
  rewrite (Hx Wx). cbn [deliver]. destruct r as [|y r'].
  - cbn. reflexivity.
  - cbn [app parse_tokens parse_step].
    rewrite (IH Wr ltac:(discriminate)). cbn [rev].
    now rewrite <- app_assoc.
Qed.

Lemma parse_members (props : list (string * value)) :
  Forall (fun kv => parses_back (snd kv)) props -> well_formed_props props ->
  props <> [] ->
  forall acc k0 stk rest,
  parse_tokens (PKey (FObj acc k0 :: stk))
    (members_tokens props ++ TRBrace :: rest)
  = parse_tokens
      (deliver (JObj (fold_left (fun a kv => obj_set a (fst kv) (snd kv))
                        props acc)) stk) rest.
Proof.
  induction 1 as [|[k x] r Hx Hr IH]; intros W N acc k0 stk rest; [congruence|].
  destruct W as [Wx Wr]. simpl in Hx. cbn [members_tokens].
  cbn [app parse_tokens parse_step set_key]. rewrite <- app_assoc.
  rewrite (Hx Wx). cbn [deliver fold_left fst snd]. destruct r as [|[k' y] r'].
  - cbn. reflexivity.
  - cbn [app parse_tokens parse_step].
    now rewrite (IH Wr ltac:(discriminate)).
Qed.

Lemma parse_value (v : value) : parses_back v.
Proof.
  induction v as [| |b|l|s|items IH|props IH] using value_induction;
    intros W stk rest; try reflexivity.
  - destruct W.
  - now destruct b.
  - rewrite tokens_of_arr. cbn [app parse_tokens parse_step open_value scalar_of].
    rewrite <- app_assoc. cbn [app]. destruct items as [|x r].
    + reflexivity.
    + assert (Wx : well_formed x) by apply W.
      cbn [elems_tokens]. rewrite <- app_assoc, parse_first by exact Wx.
      rewrite app_assoc.
      change (tokens_of x ++ match r with
                             | [] => []
                             | _ :: _ => TComma :: elems_tokens r
                             end)%list with (elems_tokens (x :: r)).
      now rewrite (parse_elements (x :: r) IH W ltac:(discriminate)).
  - rewrite tokens_of_obj. cbn [app parse_tokens parse_step open_value scalar_of].
    rewrite <- app_assoc. cbn [app]. destruct W as [R W].
    destruct props as [|[k x] r].
    + reflexivity.
    + pose proof (parse_members ((k, x) :: r) IH W ltac:(discriminate)
                    [] "" stk rest) as P.
      cbn [members_tokens app parse_tokens parse_step set_key] in P |- *.
      rewrite P. unfold rebuild in R. now rewrite R.
Qed.

(** [JSON.parse(JSON.stringify(v))] is [v] for a well-formed [v]. *)
Lemma parse_stringify (v : value) :
  well_formed v -> parse_text (element_text v) = Some v.
Proof.
  intros W. unfold parse_text. rewrite <- (append_nil_r (element_text v)).
  rewrite (lex_value v W "" eq_refl). cbn [lex lex_end option_map].
  rewrite (parse_value v W [] []). reflexivity.
Qed.

(** ** The typed response *)









(** ** The synthesized summary *)

Lemma collapse_from_length (s : string) (b : bool) :
  (String.length (collapse_from b s) <= String.length s)%nat.
Proof.
  revert b. induction s as [|c r IH]; intros b; simpl; [lia|].
  destruct (is_space c); [destruct b|]; simpl;
    try (pose proof (IH true)); try (pose proof (IH false)); lia.
Qed.

Lemma collapse_from_true_head (c : ascii) (r : string) :
  collapse_from true (String c r) = String c r -> is_space c = false.
Proof.
  cbn [collapse_from]. destruct (is_space c); [|reflexivity].
  intros H. apply (f_equal String.length) in H.
  pose proof (collapse_from_length r true). simpl in H. lia.
Qed.

Lemma collapse_from_idem (s : string) (b b' : bool) :
  b = true \/ b' = false ->
  collapse_from b' (collapse_from b s) = collapse_from b s.
Proof.
  revert b b'. induction s as [|c r IH]; intros b b' H; [reflexivity|].
  cbn [collapse_from]. destruct (is_space c) eqn:E.
  - destruct b.
    + apply IH. now left.
    + destruct H as [H|H]; [discriminate|]. subst b'.
      cbn [collapse_from]. change (is_space " ") with true. cbv iota.
      f_equal. apply IH. now left.
  - cbn [collapse_from]. rewrite E. f_equal. apply IH. now right.
Qed.

Lemma collapsed_rtrim (s : string) (b : bool) :
  collapse_from b s = s -> collapse_from b (rtrim s) = rtrim s.
Proof.
  revert b. induction s as [|c r IH]; intros b H; [reflexivity|].
  cbn [collapse_from] in H. cbn [rtrim]. destruct (is_space c) eqn:E.
  - destruct b.
    + exfalso. apply (f_equal String.length) in H.
      pose proof (collapse_from_length r true). simpl in H. lia.
    + injection H as Hc Hr. apply IH in Hr.
      destruct (rtrim r) as [|d r'] eqn:R; [reflexivity|].
      cbn [collapse_from]. rewrite E. f_equal; [exact Hc|exact Hr].
  - injection H as Hr. apply IH in Hr.
    destruct (rtrim r) as [|d r'] eqn:R.
    + cbn [collapse_from]. now rewrite E.
    + cbn [collapse_from]. rewrite E. f_equal. exact Hr.
Qed.

Lemma collapsed_ltrim (s : string) :
  collapse_from false s = s -> collapse_from false (ltrim s) = ltrim s.
Proof.
  destruct s as [|c r]; [reflexivity|]. intros H.
  cbn [collapse_from] in H. cbn [ltrim]. destruct (is_space c) eqn:E.
  - injection H as _ Hr. destruct r as [|d r']; [reflexivity|].
    pose proof (collapse_from_true_head _ _ Hr) as Ed.
    cbn [ltrim]. rewrite Ed. cbn [collapse_from] in Hr |- *.
    rewrite Ed in Hr |- *. exact Hr.
  - cbn [collapse_from]. rewrite E. exact H.
Qed.

(** Collapsing and trimming leave single spaces between words only. *)
Lemma tidy_text (s : string) :
  let t := trim (collapse_spaces s) in
  trim t = t /\ collapse_spaces t = t.
Proof.
  cbv zeta. split; [apply trim_idem|]. unfold trim, collapse_spaces.
  apply collapsed_ltrim, collapsed_rtrim, collapse_from_idem. now right.
Qed.

Lemma rtrim_nonspace_head (c : ascii) (r : string) :
  is_space c = false -> exists r', rtrim (String c r) = String c r'.
Proof.
  intros E. cbn [rtrim]. destruct (rtrim r); rewrite ?E; now eexists.
Qed.

Lemma rtrim_app_nonspace (a b : string) (c : ascii) :
  is_space c = false ->
  exists r', rtrim (a ++ String c b) = a ++ String c r'.
Proof.
  intros E. induction a as [|x a' [r' IH]].
  - apply rtrim_nonspace_head, E.
  - change (String x a' ++ String c b) with (String x (a' ++ String c b)).
    cbn [rtrim]. rewrite IH. exists r'.
    destruct (a' ++ String c r') eqn:Z; [destruct a'; discriminate|].
    now rewrite <- Z.
Qed.

Lemma collapse_sentence_head (X : string) :
  collapse_spaces ("This document contains clauses related to " ++ X)
  = "This document contains clauses related to " ++ collapse_from true X.
Proof. reflexivity. Qed.

(** The shape of the sentence that [generateSummary] composes. *)
Lemma summary_shape (X : string) :
  let res :=
    trim (collapse_spaces ("This document contains clauses related to " ++ X)) in
  trim res = res /\ collapse_spaces res = res /\
  starts_with "This document contains clauses related to" res = true.
Proof.
  cbv zeta.
  destruct (tidy_text ("This document contains clauses related to " ++ X))
    as [T1 T2].
  split; [exact T1|split; [exact T2|]].
  rewrite collapse_sentence_head. unfold trim.
  destruct (rtrim_app_nonspace "This document contains clauses related t"
              (String " " (collapse_from true X)) "o" eq_refl) as [r' R].
  change ("This document contains clauses related t"
          ++ String "o" (String " " (collapse_from true X)))
    with ("This document contains clauses related to " ++ collapse_from true X)
    in R.
  rewrite R. reflexivity.
Qed.

(** X21: without a string [summary] in the payload, what
    [generateSummary] returns is tidy (no whitespace at either end, and
    between words single spaces only), and when there are records it
    opens with the fixed words of the sentence. *)
Theorem synthesized_summary_is_tidy (rawData : value)
  (parsedClauses : list Clause) (res : string) :
  (forall s, opt_get rawData "summary" <> JStr s) ->
  generateSummary rawData parsedClauses = Ok res ->
  trim res = res /\ collapse_spaces res = res /\
  (parsedClauses <> [] ->
   starts_with "This document contains clauses related to" res = true).
Proof.
  intros Hs. unfold generateSummary.
  assert (E : match opt_get rawData "summary" with
              | JStr s =>
                  if (truthy (opt_get rawData "summary")
                      && (0 <? String.length (trim s))%nat)%bool
                  then Some s else None
              | _ => None
              end = None).
  { destruct (opt_get rawData "summary") eqn:E; try reflexivity.
    now destruct (Hs s). }
  rewrite E. destruct parsedClauses as [|c0 r].
  - intros [= <-]. repeat split; try reflexivity. congruence.
  - cbn [List.length Nat.eqb]. intros H.
    apply bind_ok in H as [types [_ H]].
    apply bind_ok in H as [implic [_ H]].
    match type of H with
    | Ok (trim (collapse_spaces (_ ++ ?x))) = _ =>
        destruct (summary_shape x) as [T1 [T2 T3]]
    end.
    injection H as <-.
    split; [exact T1|split; [exact T2|intros _; exact T3]].
Qed.

Lemma synthesized_summary_is_tidy_witness :
  trim "This document contains clauses related to Payment. Risks identified: high."
  = "This document contains clauses related to Payment. Risks identified: high."
  /\ collapse_spaces
       "This document contains clauses related to Payment. Risks identified: high."
     = "This document contains clauses related to Payment. Risks identified: high."
  /\ ([mkClause (JNum "0") (JStr "a") (JStr " Payment ") "high" JNull] <> [] ->
      starts_with "This document contains clauses related to"
        "This document contains clauses related to Payment. Risks identified: high."
      = true).
Proof.
  apply (synthesized_summary_is_tidy JNull
           [mkClause (JNum "0") (JStr "a") (JStr " Payment ") "high" JNull]).
  - intros s H. discriminate.
  - reflexivity.
Defined.

(** ** A fenced array, end to end *)

Lemma rtrim_snoc_nonspace (x : string) (c : ascii) :
  is_space c = false -> rtrim (x ++ String c "") = x ++ String c "".
Proof.
  intros E. induction x as [|d r IH]; simpl; [now rewrite E|].
  rewrite IH. destruct (r ++ String c "") eqn:Z; [|reflexivity].
  destruct r; discriminate.
Qed.

Lemma trim_array_text (items : list value) :
  trim (element_text (JArr items)) = element_text (JArr items).
Proof.
  unfold element_text. rewrite stringify_arr. unfold trim.
  replace ("[" ++ join "," (map element_text items) ++ "]")
    with (("[" ++ join "," (map element_text items)) ++ String "]" "")
    by now rewrite append_assoc.
  rewrite rtrim_snoc_nonspace by reflexivity. reflexivity.
Qed.

(** X22: a non-empty array of clause objects written by [JSON.stringify]
    and wrapped in a [json] fence is recovered by the strict tier: the
    records are the normalization of its elements, one per element and in
    order, the method is [array] and the cleaned block is the array
    text, whatever the texts of the clauses hold. *)
Theorem fenced_array_is_extracted (items : list value) :
  items <> [] -> well_formed_list items -> forallb plain_item items = true ->
  exists recs,
    normalize items = Ok recs /\
    List.length recs = List.length items /\
    extraction
      (text_payload ("```json" ++ element_text (JArr items) ++ fence))
    = Ok (mkResult recs "array" (Some (element_text (JArr items)))).
Proof.
  intros N W P.
  destruct (normalize_plain_batch items P) as [recs [E L]].
  exists recs. split; [exact E|split; [exact L|]].
  set (A := element_text (JArr items)).
  assert (C : clean ("```json" ++ A ++ fence) = A).
  { unfold clean.
    change (remove_open_fence ("```json" ++ A ++ fence))
      with (ltrim (A ++ fence)).
    rewrite clean_fenced_body. apply trim_array_text. }
  assert (PA : parse_text A = Some (JArr items))
    by exact (parse_stringify (JArr items) W).
  assert (S1 : strict_parse A = Some recs).
  { unfold strict_parse, parse_array, JSON_parse. rewrite PA.
    cbn [bind]. now rewrite E. }
  assert (PN : parseNestedClauses (text_payload ("```json" ++ A ++ fence))
               = Ok recs).
  { unfold parseNestedClauses, normalized_tiers.
    change (candidate_of (text_payload ("```json" ++ A ++ fence)))
      with (Some ("```json" ++ A ++ fence)).
    change (negb (truthy (text_payload ("```json" ++ A ++ fence)))) with false.
    cbv iota. unfold candidate_tiers.
    change ("```json" ++ A ++ fence =? "") with false. cbv iota.
    rewrite C, S1. reflexivity. }
  unfold extraction. rewrite PN. cbn [bind].
  change (first_clause_field (text_payload ("```json" ++ A ++ fence)) "text")
    with (JStr ("```json" ++ A ++ fence)).
  cbn [coalesce nullish truthy].
  change ("```json" ++ A ++ fence =? "") with false. cbn [negb bind].
  rewrite C.
  assert (NE : (A =? "") = false) by exact (parse_text_nonempty _ _ PA).
  rewrite NE.
  destruct (object_matches_total A) as [oc Eoc]. rewrite NE in Eoc.
  rewrite Eoc. cbn [bind].
  assert (LP : (0 <? List.length recs)%nat = true).
  { rewrite L. destruct items; [congruence|reflexivity]. }
  rewrite LP. reflexivity.
Qed.

Lemma fenced_array_is_extracted_witness :
  exists recs,
    normalize [JObj [("clause_text", JStr "Pay in ``` 30 days }")]] = Ok recs /\
    List.length recs = 1%nat /\
    extraction
      (text_payload
         ("```json"
          ++ element_text (JArr [JObj [("clause_text", JStr "Pay in ``` 30 days }")]])
          ++ fence))
    = Ok (mkResult recs "array"
            (Some (element_text
                     (JArr [JObj [("clause_text", JStr "Pay in ``` 30 days }")]])))).
Proof.
  apply (fenced_array_is_extracted
           [JObj [("clause_text", JStr "Pay in ``` 30 days }")]]).
  - discriminate.
  - exact (conj (conj eq_refl (conj I I)) I).
  - reflexivity.
Defined.

(** * Deeply equal payloads (C6) *)




























